(** * runDockerCompose.ts: the [custom:docker-compose] scaffolder action

    A shallow embedding of the two versions of [createDockerComposeAction]
    found in [src/runDockerCompose.ts], and the properties of the container
    lifecycle orchestration they implement.

    The handler is asynchronous JavaScript driving external processes.  It is
    embedded as a function from a [World] (the answers of the file system, of
    the YAML loader and of every spawned child process) to the list of actions
    the handler performs, in order, together with its outcome: a returned value
    or a thrown error.

    JavaScript strings are modelled by [string]; one [ascii] stands for one
    code unit below 256. *)

From Stdlib Require Import String Ascii List ZArith NArith Lia Bool.
From Stdlib Require Import Permutation Sorted DecimalString.
Import ListNotations.

Local Open Scope string_scope.
Local Open Scope list_scope.

(* ================================================================== *)
(** * JavaScript strings *)
(* ================================================================== *)

Module JsString.

(** The double quote, which the shell command lines of the source contain. *)
Definition dquote : string := String (ascii_of_nat 34) EmptyString.

(** The line feed ['\n']. *)
Definition LF : ascii := ascii_of_nat 10.

(** [s.startsWith(p)]. *)
Fixpoint startsWith (p s : string) : bool :=
  match p, s with
  | EmptyString, _ => true
  | String a p', String b s' => Ascii.eqb a b && startsWith p' s'
  | String _ _, EmptyString => false
  end.

(** [s.includes(needle)]: [needle] occurs somewhere in [s]. *)
Fixpoint includes (needle s : string) : bool :=
  startsWith needle s ||
  match s with
  | EmptyString => false
  | String _ s' => includes needle s'
  end.

(** [s.split(sep)] for a one-character separator: never the empty list, and
    a trailing separator gives a trailing empty piece. *)
Fixpoint split (sep : ascii) (s : string) : list string :=
  match s with
  | EmptyString => [EmptyString]
  | String c s' =>
      if Ascii.eqb c sep then EmptyString :: split sep s'
      else match split sep s' with
           | [] => [String c EmptyString]
           | piece :: pieces => String c piece :: pieces
           end
  end.

(** [l.join(sep)]. *)
Fixpoint join (sep : string) (l : list string) : string :=
  match l with
  | [] => EmptyString
  | [x] => x
  | x :: rest => (x ++ sep ++ join sep rest)%string
  end.

(** White space and line terminators that [trim] strips, among the code units
    below 256: TAB, LF, VT, FF, CR, SP and NBSP. *)
Definition isWhiteSpace (c : ascii) : bool :=
  let n := nat_of_ascii c in
  ((9 <=? n)%nat && (n <=? 13)%nat) || (n =? 32)%nat || (n =? 160)%nat.

Fixpoint trimStart (s : string) : string :=
  match s with
  | EmptyString => EmptyString
  | String c s' => if isWhiteSpace c then trimStart s' else s
  end.

Fixpoint reverse (s : string) : string :=
  match s with
  | EmptyString => EmptyString
  | String c s' => (reverse s' ++ String c EmptyString)%string
  end.

Definition trimEnd (s : string) : string := reverse (trimStart (reverse s)).

(** [s.trim()]. *)
Definition trim (s : string) : string := trimEnd (trimStart s).

(** A string as a condition: the empty string is the only falsy one. *)
Definition truthy (s : string) : bool :=
  match s with EmptyString => false | String _ _ => true end.

(** [\d]: an ASCII decimal digit. *)
Definition isDigit (c : ascii) : bool :=
  let n := nat_of_ascii c in (48 <=? n)%nat && (n <=? 57)%nat.

Fixpoint allChars (p : ascii -> bool) (s : string) : bool :=
  match s with
  | EmptyString => true
  | String c s' => p c && allChars p s'
  end.

(** Non-empty and made of decimal digits only. *)
Definition isDigits (s : string) : bool := truthy s && allChars isDigit s.

(** An integer in a template literal; exit codes are integers small enough
    to be printed in plain decimal. *)
Definition ofZ (z : Z) : string := NilZero.string_of_int (Z.to_int z).

End JsString.

(* ================================================================== *)
(** * JavaScript objects used as maps *)
(* ================================================================== *)

(** The handler uses two ordinary objects as maps keyed by service name:
    [doc.services], built by the YAML loader, and [ports], built by the
    handler itself.  What it observes of them is the list of their own
    enumerable string-keyed properties, through [Object.keys] and
    [Object.entries].  An object is modelled by its properties in the order
    they were created; [Object.keys] and [Object.entries] enumerate the
    properties whose key is an array index first, in ascending numeric order,
    and the others after them, in creation order. *)

Module JsObject.

Import JsString.

(** The value of a string of decimal digits. *)
Fixpoint digitsValue (acc : N) (s : string) : N :=
  match s with
  | EmptyString => acc
  | String c s' =>
      digitsValue (10 * acc + N.of_nat (nat_of_ascii c - 48)) s'
  end.

(** No leading zero: ["0"] itself, or a first character other than ['0']. *)
Definition canonicalNumeric (k : string) : bool :=
  match k with
  | EmptyString => false
  | String c rest =>
      isDigits k && (negb (Ascii.eqb c "0"%char) || negb (truthy rest))
  end.

(** An array index is a canonical numeric string whose value is below
    [2^32 - 1]. *)
Definition arrayIndex (k : string) : option N :=
  if canonicalNumeric k then
    let n := digitsValue 0 k in
    if (n <? 4294967295)%N then Some n else None
  else None.

Definition isArrayIndex (k : string) : bool :=
  match arrayIndex k with Some _ => true | None => false end.

Section Order.
Context {A : Type} (key : A -> string).

Fixpoint insertByIndex (x : N * A) (l : list (N * A)) : list (N * A) :=
  match l with
  | [] => [x]
  | y :: l' =>
      if (fst x <=? fst y)%N then x :: l else y :: insertByIndex x l'
  end.

Fixpoint sortByIndex (l : list (N * A)) : list (N * A) :=
  match l with
  | [] => []
  | x :: l' => insertByIndex x (sortByIndex l')
  end.

(** The properties whose key is an array index, with that index. *)
Fixpoint indexed (l : list A) : list (N * A) :=
  match l with
  | [] => []
  | x :: l' =>
      match arrayIndex (key x) with
      | Some n => (n, x) :: indexed l'
      | None => indexed l'
      end
  end.

(** The other properties. *)
Definition named (l : list A) : list A :=
  filter (fun x => negb (isArrayIndex (key x))) l.

(** The order in which own properties are enumerated, given the order in
    which they were created. *)
Definition ownOrder (l : list A) : list A :=
  map snd (sortByIndex (indexed l)) ++ named l.

(** A pair carries the array index of its property, as those of [indexed]
    do. *)
Definition tagged (p : N * A) : Prop :=
  arrayIndex (key (snd p)) = Some (fst p).
End Order.

(** Ascending indices. *)
Definition byIndex {A : Type} (p q : N * A) : Prop := (fst p <= fst q)%N.

(** An object: its own enumerable properties in creation order. *)
Definition t (V : Type) : Type := list (string * V).

(** The object literal [{}]. *)
Definition empty {V : Type} : t V := [].

Definition hasOwn {V : Type} (k : string) (o : t V) : bool :=
  existsb (fun p => String.eqb k (fst p)) o.

Fixpoint update {V : Type} (k : string) (v : V) (o : t V) : t V :=
  match o with
  | [] => []
  | (k', v') :: o' =>
      if String.eqb k k' then (k', v) :: o' else (k', v') :: update k v o'
  end.

(** The assignment [o[k] = v] on an object created by [{}].  An existing
    property keeps its place and a new one is created last.  The key
    ["__proto__"] is the exception: [Object.prototype] has an accessor of
    that name, the assignment calls its setter, which changes the prototype
    of [o] (the value assigned here is an array, hence an object), and [o]
    gets no own property.  The other inherited properties are writable data
    properties and do not stand in the way. *)
Definition set {V : Type} (o : t V) (k : string) (v : V) : t V :=
  if String.eqb k "__proto__" then o
  else if hasOwn k o then update k v o
  else o ++ [(k, v)].

(** The assignment of the value computed for the key. *)
Definition put {V : Type} (f : string -> V) (o : t V) (k : string) : t V :=
  set o k (f k).

(** The enumeration order of a list of keys given in creation order. *)
Definition ownKeys (created : list string) : list string :=
  ownOrder (fun k => k) created.

(** [Object.keys(o)]. *)
Definition keys {V : Type} (o : t V) : list string := ownKeys (map fst o).

(** [Object.entries(o)]. *)
Definition entries {V : Type} (o : t V) : list (string * V) :=
  ownOrder fst o.

End JsObject.

(* ================================================================== *)
(** * The regular expression of the port listing *)
(* ================================================================== *)

(** [/^(\d+)\/tcp -> [^:]+:(\d+)$/] is a sequence of literals and of greedy
    one-or-more repetitions of a character class, two of them captured,
    anchored at both ends of the input (no flag is set).  [exec] is the
    backtracking matcher for such sequences: a repetition takes as many
    characters as it can and gives them back one at a time while the rest of
    the pattern fails. *)

Module Regex.

Import JsString.

Inductive Item : Type :=
| Lit (s : string)                       (* the characters of [s] *)
| Plus (cls : ascii -> bool)             (* [cls+] *)
| Capture (cls : ascii -> bool).         (* [(cls+)] *)

Definition Pattern : Type := list Item.

(** [s] without its prefix [p], when it starts with [p]. *)
Fixpoint stripPrefix (p s : string) : option string :=
  match p, s with
  | EmptyString, _ => Some s
  | String a p', String b s' =>
      if Ascii.eqb a b then stripPrefix p' s' else None
  | String _ _, EmptyString => None
  end.

Section Repetition.
Context {R : Type} (cls : ascii -> bool).
(** [k taken rest]: the continuation of the match once the repetition has
    taken [taken] and left [rest]. *)
Variable k : string -> string -> option R.

Fixpoint plus (taken s : string) : option R :=
  match s with
  | EmptyString => None
  | String c s' =>
      if cls c then
        let taken' := (taken ++ String c EmptyString)%string in
        match plus taken' s' with
        | Some r => Some r
        | None => k taken' s'
        end
      else None
  end.
End Repetition.

(** [exec p s caps]: the captures of the match of [p] against the whole of
    [s], after the captures [caps] (latest first) of what was matched
    before. *)
Fixpoint exec (p : Pattern) (s : string) (caps : list string)
  : option (list string) :=
  match p with
  | [] => match s with
          | EmptyString => Some (List.rev caps)
          | String _ _ => None
          end
  | Lit l :: p' =>
      match stripPrefix l s with
      | Some s' => exec p' s' caps
      | None => None
      end
  | Plus cls :: p' =>
      plus cls (fun _ rest => exec p' rest caps) EmptyString s
  | Capture cls :: p' =>
      plus cls (fun taken rest => exec p' rest (taken :: caps)) EmptyString s
  end.

(** [s.match(p)] for an anchored pattern: the capture groups, or [None] for
    [null]. *)
Definition matchAll (p : Pattern) (s : string) : option (list string) :=
  exec p s [].

Definition notColon (c : ascii) : bool := negb (Ascii.eqb c ":"%char).

(** [/^(\d+)\/tcp -> [^:]+:(\d+)$/] *)
Definition portLine : Pattern :=
  [Capture isDigit; Lit "/tcp -> "; Plus notColon; Lit ":"; Capture isDigit].

End Regex.

(* ================================================================== *)
(** * The host: logger, outputs, file system, child processes *)
(* ================================================================== *)

Module Host.

Import JsString.

(** The severities of [ctx.logger]. *)
Inductive Level : Type := info | warn | error.

(** The two channels of a child process. *)
Inductive Stream : Type := stdout | stderr.

(** What a spawned child does: the ['data'] chunks of its two channels in the
    order they arrive, then ['close'] with the exit code ([null] when a
    signal ended the child).  A child that cannot be spawned, or that never
    closes, has no run: the handler registers no ['error'] listener and sets
    no deadline, and then neither returns nor throws. *)
Record ProcRun : Type := {
  chunks : list (Stream * string);
  exitCode : option Z
}.

(** One published binding: [{ hostPort: string; containerPort: string }]. *)
Record PortMapping : Type := {
  hostPort : string;
  containerPort : string
}.

(** [Record<string, Array<{ hostPort; containerPort }>>] *)
Definition PortTable : Type := JsObject.t (list PortMapping).

Inductive OutputValue : Type :=
| OutPorts (table : PortTable)
| OutString (s : string).

(** What the handler does to the world around it, in order. *)
Inductive Event : Type :=
| Log (lvl : Level) (msg : string)            (* [ctx.logger.lvl(msg)] *)
| LoadYaml (path : string)                    (* [readFileSync], [yaml.load] *)
| Spawn (file : string) (args : list string) (cwd : option string)
| Output (name : string) (value : OutputValue). (* [ctx.output(name, value)] *)

(** How the [try] block that reads the manifest ends: something in it throws
    (the import, the read, the YAML loader, or reading [services] of a
    document that is [null] or [undefined]), with [err] the thrown value as a
    template literal prints it; or [doc.services] is falsy; or it is truthy
    and [created] are its own enumerable property keys in creation order.
    The loader creates the properties of a mapping in the order the
    document declares its keys, and throws on a mapping that repeats a key:
    [created] is the list of declared service names, in the order of
    declaration, without repetition. *)
Inductive ParseOutcome : Type :=
| ParseThrows (err : string)
| NoServices
| Services (created : list string).

(** The answers of everything outside the handler. *)
Record World : Type := {
  path_join : string -> string -> string;
  existsSync : string -> bool;
  loadServices : string -> ParseOutcome;
  run : string -> list string -> option string -> ProcRun
}.

(** [ctx.input] and [ctx.workspacePath]. *)
Record Input : Type := {
  composeFile : string;
  workDir : option string
}.

Record Ctx : Type := {
  input : Input;
  workspacePath : string
}.

(** ** The handler's monad: a trace of events and a result or a throw *)

Inductive Outcome (A : Type) : Type :=
| Returned (a : A)
| Thrown (msg : string).
Arguments Returned {A} a.
Arguments Thrown {A} msg.

Definition M (A : Type) : Type := (list Event * Outcome A)%type.

Definition ret {A : Type} (a : A) : M A := ([], Returned a).

Definition bind {A B : Type} (m : M A) (f : A -> M B) : M B :=
  match m with
  | (t, Returned a) => let (t', r) := f a in (t ++ t', r)
  | (t, Thrown msg) => (t, Thrown msg)
  end.

Definition emit (e : Event) : M unit := ([e], Returned tt).

(** [throw new Error(msg)], and a promise rejected with it while awaited. *)
Definition throw {A : Type} (msg : string) : M A := ([], Thrown msg).

Definition log (lvl : Level) (msg : string) : M unit := emit (Log lvl msg).

Definition trace {A : Type} (m : M A) : list Event := fst m.
Definition outcome {A : Type} (m : M A) : Outcome A := snd m.

Fixpoint forEach {A : Type} (l : list A) (body : A -> M unit) : M unit :=
  match l with
  | [] => ret tt
  | x :: l' => bind (body x) (fun _ => forEach l' body)
  end.

Fixpoint foldM {A S : Type} (body : S -> A -> M S) (l : list A) (s : S)
  : M S :=
  match l with
  | [] => ret s
  | x :: l' => bind (body s x) (foldM body l')
  end.

(** [`${code}`] for the argument of ['close']. *)
Definition showCode (code : option Z) : string :=
  match code with
  | Some n => ofZ n
  | None => "null"
  end.

End Host.

Declare Scope action_scope.
Delimit Scope action_scope with action.
Notation "x <- m ;; k" := (Host.bind m (fun x => k))
  (at level 61, m at next level, right associativity) : action_scope.
Notation "m ;; k" := (Host.bind m (fun _ => k))
  (at level 61, right associativity) : action_scope.

(* ================================================================== *)
(** * [JSON.stringify(ports)] *)
(* ================================================================== *)

Module JSON.

Import JsString Host.

Definition hexDigit (n : nat) : ascii :=
  if (n <? 10)%nat then ascii_of_nat (48 + n) else ascii_of_nat (87 + n).

(** One character inside a JSON string. *)
Definition escape (c : ascii) : string :=
  let n := nat_of_ascii c in
  if (n =? 34)%nat then ("\" ++ dquote)%string
  else if (n =? 92)%nat then "\\"
  else if (n =? 8)%nat then "\b"
  else if (n =? 9)%nat then "\t"
  else if (n =? 10)%nat then "\n"
  else if (n =? 12)%nat then "\f"
  else if (n =? 13)%nat then "\r"
  else if (n <? 32)%nat then
    ("\u00" ++ String (hexDigit (n / 16)) (String (hexDigit (n mod 16))
                                             EmptyString))%string
  else String c EmptyString.

Fixpoint escapeAll (s : string) : string :=
  match s with
  | EmptyString => EmptyString
  | String c s' => (escape c ++ escapeAll s')%string
  end.

Definition quote (s : string) : string :=
  (dquote ++ escapeAll s ++ dquote)%string.

(** A mapping is created as [{ containerPort, hostPort }]. *)
Definition ofMapping (m : PortMapping) : string :=
  ("{" ++ quote "containerPort" ++ ":" ++ quote (containerPort m) ++ "," ++
   quote "hostPort" ++ ":" ++ quote (hostPort m) ++ "}")%string.

Definition ofMappings (l : list PortMapping) : string :=
  ("[" ++ join "," (map ofMapping l) ++ "]")%string.

Definition stringify (table : PortTable) : string :=
  ("{" ++
   join "," (map (fun e => (quote (fst e) ++ ":" ++ ofMappings (snd e))%string)
               (JsObject.entries table)) ++
   "}")%string.

End JSON.

(* ================================================================== *)
(** * The action that reports ports (first version of the file) *)
(* ================================================================== *)

Module PortsAction.

Import JsString Host.
Local Open Scope action_scope.

(** Step 1: the service names of the manifest.  Whatever the [try] block
    throws is caught and logged as a warning. *)
Definition parseServices (w : World) (composePath : string)
  : M (list string) :=
  emit (LoadYaml composePath) ;;
  match loadServices w composePath with
  | ParseThrows err =>
      log warn ("Failed to parse compose file: " ++ err) ;;
      ret []
  | NoServices => ret []
  | Services created =>
      let serviceNames := JsObject.ownKeys created in
      log info ("Detected services: " ++ join ", " serviceNames) ;;
      ret serviceNames
  end.

(** The shell command line of step 2. *)
Definition rmCommand (service : string) : string :=
  ("docker ps -a --filter " ++ dquote ++ "name=" ++ service ++ dquote ++
   " --format " ++ dquote ++ "{{.Names}}" ++ dquote ++
   " | xargs -r docker rm -f")%string.

(** Step 2, for one service: spawn, forward the output, and resolve on
    ['close'] whatever its argument. *)
Definition removeContainers (w : World) (service : string) : M unit :=
  let args := ["-c"; rmCommand service] in
  emit (Spawn "/usr/bin/bash" args None) ;;
  forEach (chunks (run w "/usr/bin/bash" args None))
    (fun c =>
       match fst c with
       | stdout => log info ("DOCKER OUT: " ++ snd c)
       | stderr => log warn ("DOCKER WARN: " ++ snd c)
       end) ;;
  log info ("Removed any existing containers matching: " ++ service).

(** The listener on the error channel of [docker compose up]. *)
Definition upStderr (str : string) : M unit :=
  if includes "Creating" str || includes "Created" str
     || includes "level=warning" str
  then log warn ("DOCKER WARN: " ++ str)
  else log warn ("DOCKER ERR: " ++ str).

(** Step 3: [docker compose -f composePath up -d --build] in [cwd]. *)
Definition composeUp (w : World) (composePath cwd : string) : M unit :=
  let args := ["compose"; "-f"; composePath; "up"; "-d"; "--build"] in
  let proc := run w "/usr/bin/docker" args (Some cwd) in
  emit (Spawn "/usr/bin/docker" args (Some cwd)) ;;
  forEach (chunks proc)
    (fun c =>
       match fst c with
       | stdout => log info ("DOCKER OUT: " ++ snd c)
       | stderr => upStderr (snd c)
       end) ;;
  match exitCode proc with
  | Some 0%Z => log info "Docker Compose executed successfully."
  | code =>
      log error ("docker compose up exited with code " ++ showCode code) ;;
      throw ("docker compose up exited with code " ++ showCode code)
  end.

(** The shell command line of step 4. *)
Definition portCommand (service : string) : string :=
  ("docker ps --filter " ++ dquote ++ "name=" ++ service ++ dquote ++
   " --format " ++ dquote ++ "{{.Names}}" ++ dquote ++
   " | xargs -r -I {} docker port {}")%string.

(** The body of [forEach(line => ...)]: what one line pushes on
    [mappings]. *)
Definition parseLine (mappings : list PortMapping) (line : string)
  : list PortMapping :=
  if truthy (trim line) then
    match Regex.matchAll Regex.portLine line with
    | Some groups =>
        mappings ++ [ {| containerPort := nth 0 groups EmptyString;
                         hostPort := nth 1 groups EmptyString |} ]
    | None => mappings
    end
  else mappings.

(** The ['close'] listener of the port query, up to the assignment. *)
Definition parsePorts (output : string) : list PortMapping :=
  fold_left parseLine (split LF output) [].

(** The ['data'] listeners of the port query: standard output is
    accumulated, the error channel is logged. *)
Definition collect (output : string) (c : Stream * string) : M string :=
  match fst c with
  | stdout => ret (output ++ snd c)%string
  | stderr => log warn ("DOCKER WARN: " ++ snd c) ;; ret output
  end.

(** Step 4, for one service. *)
Definition inspectService (w : World) (ports : PortTable) (service : string)
  : M PortTable :=
  let args := ["-c"; portCommand service] in
  emit (Spawn "/usr/bin/bash" args None) ;;
  output <- foldM collect (chunks (run w "/usr/bin/bash" args None))
              EmptyString ;;
  ret (JsObject.set ports service (parsePorts output)).

(** Step 5: the loop over [Object.entries(ports)], left at the first entry
    with a mapping. *)
Fixpoint pickWebUrl (es : list (string * list PortMapping)) : string :=
  match es with
  | [] => EmptyString
  | (_, mappings) :: rest =>
      match mappings with
      | first :: _ => ("http://localhost:" ++ hostPort first)%string
      | [] => pickWebUrl rest
      end
  end.

(** [{ webUrl, ports }] *)
Record Result : Type := {
  webUrl : string;
  ports : PortTable
}.

Definition handler (w : World) (ctx : Ctx) : M Result :=
  let cwd := match workDir (input ctx) with
             | Some dir => dir
             | None => workspacePath ctx
             end in
  let composePath := path_join w cwd (composeFile (input ctx)) in
  log info ("Compose file: " ++ composePath) ;;
  (if existsSync w composePath then ret tt
   else throw ("Compose file not found: " ++ composePath)) ;;
  serviceNames <- parseServices w composePath ;;
  forEach serviceNames (removeContainers w) ;;
  log info "Starting Docker Compose..." ;;
  composeUp w composePath cwd ;;
  ports <- foldM (inspectService w) serviceNames JsObject.empty ;;
  log info ("Exposed ports: " ++ JSON.stringify ports) ;;
  let webUrl := pickWebUrl (JsObject.entries ports) in
  emit (Output "ports" (OutPorts ports)) ;;
  log info ("Web URL detected: " ++ webUrl) ;;
  emit (Output "webUrl" (OutString webUrl)) ;;
  ret {| webUrl := webUrl; ports := ports |}.

End PortsAction.

(* ================================================================== *)
(** * The action that only builds and starts (second version) *)
(* ================================================================== *)

Module BuildAction.

Import JsString Host.
Local Open Scope action_scope.

Definition parseServices (w : World) (composePath : string)
  : M (list string) :=
  emit (LoadYaml composePath) ;;
  match loadServices w composePath with
  | ParseThrows err =>
      log warn ("Failed to parse compose file for service names: " ++ err) ;;
      ret []
  | NoServices => ret []
  | Services created =>
      let serviceNames := JsObject.ownKeys created in
      log info ("Detected services in compose file: "
                ++ join ", " serviceNames) ;;
      ret serviceNames
  end.

(** The removal loop is the same text in both versions. *)
Definition removeContainers : World -> string -> M unit :=
  PortsAction.removeContainers.

Definition upStderr (str : string) : M unit :=
  if includes "Creating" str || includes "Created" str
     || includes "level=warning" str
  then log warn ("DOCKER WARN: " ++ str)
  else log error ("DOCKER ERR: " ++ str).

Definition composeUp (w : World) (composePath cwd : string) : M unit :=
  let args := ["compose"; "-f"; composePath; "up"; "-d"; "--build"] in
  let proc := run w "/usr/bin/docker" args (Some cwd) in
  emit (Spawn "/usr/bin/docker" args (Some cwd)) ;;
  forEach (chunks proc)
    (fun c =>
       match fst c with
       | stdout => log info ("DOCKER OUT: " ++ snd c)
       | stderr => upStderr (snd c)
       end) ;;
  match exitCode proc with
  | Some 0%Z => log info "Docker Compose executed successfully."
  | code =>
      log error ("docker compose up exited with code " ++ showCode code) ;;
      throw ("docker compose up exited with code " ++ showCode code)
  end.

Definition handler (w : World) (ctx : Ctx) : M unit :=
  let cwd := match workDir (input ctx) with
             | Some dir => dir
             | None => workspacePath ctx
             end in
  let composePath := path_join w cwd (composeFile (input ctx)) in
  log info ("composeFile from user: " ++ composeFile (input ctx)) ;;
  log info ("Workspace path: " ++ cwd) ;;
  log info ("Resolved composePath: " ++ composePath) ;;
  (if existsSync w composePath then ret tt
   else
     log error ("Compose file NOT FOUND at: " ++ composePath) ;;
     throw ("Compose file not found: " ++ composePath)) ;;
  serviceNames <- parseServices w composePath ;;
  forEach serviceNames (removeContainers w) ;;
  log info "Starting Docker Compose with rebuild..." ;;
  composeUp w composePath cwd.

End BuildAction.

(* ================================================================== *)
(** * Vocabulary of the properties *)
(* ================================================================== *)

(** The definitions below describe runs of the handler; none of them is
    part of the handler. *)

Module Run.

Import JsString Host.

(** [cwd] and [composePath] as the handler computes them. *)
Definition cwdOf (ctx : Ctx) : string :=
  match workDir (input ctx) with
  | Some dir => dir
  | None => workspacePath ctx
  end.

Definition composePathOf (w : World) (ctx : Ctx) : string :=
  path_join w (cwdOf ctx) (composeFile (input ctx)).

(** The keys of the manifest's [services] in creation order, which is the
    order of declaration; none when the manifest declares none or does not
    parse. *)
Definition declared (p : ParseOutcome) : list string :=
  match p with
  | Services created => created
  | ParseThrows _ | NoServices => []
  end.

(** The three children the handler spawns. *)
Definition removalCall (service : string) : Event :=
  Spawn "/usr/bin/bash" ["-c"; PortsAction.rmCommand service] None.

Definition upCall (w : World) (ctx : Ctx) : Event :=
  Spawn "/usr/bin/docker"
    ["compose"; "-f"; composePathOf w ctx; "up"; "-d"; "--build"]
    (Some (cwdOf ctx)).

Definition portCall (service : string) : Event :=
  Spawn "/usr/bin/bash" ["-c"; PortsAction.portCommand service] None.

(** What the world answers to them. *)
Definition removalRun (w : World) (service : string) : ProcRun :=
  run w "/usr/bin/bash" ["-c"; PortsAction.rmCommand service] None.

Definition upRun (w : World) (ctx : Ctx) : ProcRun :=
  run w "/usr/bin/docker"
    ["compose"; "-f"; composePathOf w ctx; "up"; "-d"; "--build"]
    (Some (cwdOf ctx)).

Definition portRun (w : World) (service : string) : ProcRun :=
  run w "/usr/bin/bash" ["-c"; PortsAction.portCommand service] None.

(** Recognisers of events. *)
Definition isSpawn (e : Event) : bool :=
  match e with Spawn _ _ _ => true | _ => false end.

Definition isOutput (e : Event) : bool :=
  match e with Output _ _ => true | _ => false end.

Definition isLoad (e : Event) : bool :=
  match e with LoadYaml _ => true | _ => false end.

Definition isErrorLog (e : Event) : bool :=
  match e with Log error _ => true | _ => false end.

(** A removal is a shell running a listing of all containers, [ps -a]; a
    port query is a shell running a listing of the live ones. *)
Definition isShell (listing : string) (e : Event) : bool :=
  match e with
  | Spawn file [flag; command] None =>
      String.eqb file "/usr/bin/bash" && String.eqb flag "-c"
      && startsWith listing command
  | _ => false
  end.

Definition isRemoval : Event -> bool := isShell "docker ps -a ".
Definition isPortQuery : Event -> bool := isShell "docker ps --filter ".

(** The text a child wrote on its standard output. *)
Fixpoint stdoutOf (cs : list (Stream * string)) : string :=
  match cs with
  | [] => EmptyString
  | (stdout, data) :: cs' => (data ++ stdoutOf cs')%string
  | (stderr, _) :: cs' => stdoutOf cs'
  end.

(** The mappings found for a service. *)
Definition discovered (w : World) (service : string) : list PortMapping :=
  PortsAction.parsePorts (stdoutOf (chunks (portRun w service))).

(** How the removal and the port query forward a chunk to the logger. *)
Definition forwarded (c : Stream * string) : Event :=
  match fst c with
  | stdout => Log info ("DOCKER OUT: " ++ snd c)
  | stderr => Log warn ("DOCKER WARN: " ++ snd c)
  end.

(** Everything the handler does for the removal of one service. *)
Definition removalBlock (w : World) (service : string) : list Event :=
  removalCall service :: map forwarded (chunks (removalRun w service)) ++
  [Log info ("Removed any existing containers matching: " ++ service)].

(** The same world, but for the exit codes of the removals. *)
Definition withRemovalExit (code : list string -> option Z) (w : World)
  : World :=
  {| path_join := path_join w;
     existsSync := existsSync w;
     loadServices := loadServices w;
     run := fun file args cwd =>
              if isRemoval (Spawn file args cwd)
              then {| chunks := chunks (run w file args cwd);
                      exitCode := code args |}
              else run w file args cwd |}.

(** The lines of the grammar [<digits>/tcp -> <anything>:<digits>]: digits,
    the text [/tcp -> ], one or more characters none of which is a colon, a
    colon, digits, and nothing else. *)
Definition MatchesPortLine (line cPort hPort : string) : Prop :=
  exists host : string,
    line = (cPort ++ "/tcp -> " ++ host ++ ":" ++ hPort)%string /\
    isDigits cPort = true /\
    truthy host = true /\
    allChars (fun c => negb (Ascii.eqb c ":"%char)) host = true /\
    isDigits hPort = true.

(** What a line of the port listing contributes: the one mapping of its two
    digit groups when it is a line of the grammar, nothing otherwise. *)
Definition lineYields (line : string) (ms : list PortMapping) : Prop :=
  (exists cPort hPort,
      MatchesPortLine line cPort hPort /\
      ms = [ {| hostPort := hPort; containerPort := cPort |} ])
  \/ ((forall cPort hPort, ~ MatchesPortLine line cPort hPort) /\ ms = []).

Definition notProto (k : string) : bool := negb (String.eqb k "__proto__").

Definition isLog (e : Event) : bool :=
  match e with Log _ _ => true | _ => false end.

(** A recogniser of actions holds of no log entry. *)
Definition ignoresLogs (p : Event -> bool) : Prop :=
  forall lvl msg, p (Log lvl msg) = false.

(** No line feed inside. *)
Definition noLF (s : string) : bool :=
  allChars (fun c => negb (Ascii.eqb c LF)) s.

(** Both ports are non-empty strings of decimal digits. *)
Definition digitPorts (m : PortMapping) : Prop :=
  isDigits (containerPort m) = true /\ isDigits (hostPort m) = true.

Definition unpublished (e : string * list PortMapping) : Prop := snd e = [].

(** [url] is made of the first mapping of the first entry of [table] that
    has one, and is the empty string when no entry has one. *)
Definition SelectsFirst (table : list (string * list PortMapping))
    (url : string) : Prop :=
  (forall before service m ms after,
      table = before ++ (service, m :: ms) :: after ->
      Forall unpublished before ->
      url = ("http://localhost:" ++ hostPort m)%string)
  /\ (Forall unpublished table -> url = EmptyString).

End Run.

(** ** The stages of a run, as lists of events *)

Module Stages.

Import JsString Host Run.

(** The service names the handler works with: [Object.keys] of the
    manifest's services. *)
Definition serviceNames (w : World) (ctx : Ctx) : list string :=
  JsObject.ownKeys (declared (loadServices w (composePathOf w ctx))).

(** What step 1 logs. *)
Definition parseLog (w : World) (ctx : Ctx) : list Event :=
  match loadServices w (composePathOf w ctx) with
  | ParseThrows err => [Log warn ("Failed to parse compose file: " ++ err)]
  | NoServices => []
  | Services created =>
      [Log info ("Detected services: "
                 ++ join ", " (JsObject.ownKeys created))]
  end.

(** Everything up to the start of [docker compose up]. *)
Definition beforeUp (w : World) (ctx : Ctx) : list Event :=
  Log info ("Compose file: " ++ composePathOf w ctx)
  :: LoadYaml (composePathOf w ctx)
  :: parseLog w ctx
  ++ flat_map (removalBlock w) (serviceNames w ctx)
  ++ [Log info "Starting Docker Compose..."].

(** [code === 0] *)
Definition succeeded (code : option Z) : bool :=
  match code with
  | Some 0%Z => true
  | _ => false
  end.

Definition upFailure (code : option Z) : string :=
  "docker compose up exited with code " ++ showCode code.

(** How [docker compose up] is logged while it runs and when it closes. *)
Definition upForwarded (c : Stream * string) : list Event :=
  match fst c with
  | stdout => [Log info ("DOCKER OUT: " ++ snd c)]
  | stderr => trace (PortsAction.upStderr (snd c))
  end.

Definition upEvents (w : World) (ctx : Ctx) : list Event :=
  upCall w ctx
  :: flat_map upForwarded (chunks (upRun w ctx))
  ++ [if succeeded (exitCode (upRun w ctx))
      then Log info "Docker Compose executed successfully."
      else Log error (upFailure (exitCode (upRun w ctx)))].

(** What the port query of one service logs. *)
Definition stderrWarnings (cs : list (Stream * string)) : list Event :=
  flat_map (fun c => match fst c with
                     | stdout => []
                     | stderr => [Log warn ("DOCKER WARN: " ++ snd c)]
                     end) cs.

Definition queryBlock (w : World) (service : string) : list Event :=
  portCall service :: stderrWarnings (chunks (portRun w service)).

(** [ports[service] = mappings] *)
Definition assign (w : World) (table : PortTable) (service : string)
  : PortTable :=
  JsObject.set table service (discovered w service).

(** The table once every service has been queried. *)
Definition portTable (w : World) (ctx : Ctx) : PortTable :=
  fold_left (assign w) (serviceNames w ctx) JsObject.empty.

Definition selectedUrl (w : World) (ctx : Ctx) : string :=
  PortsAction.pickWebUrl (JsObject.entries (portTable w ctx)).

(** Everything after a successful [docker compose up]. *)
Definition afterUp (w : World) (ctx : Ctx) : list Event :=
  flat_map (queryBlock w) (serviceNames w ctx)
  ++ [Log info ("Exposed ports: " ++ JSON.stringify (portTable w ctx));
      Output "ports" (OutPorts (portTable w ctx));
      Log info ("Web URL detected: " ++ selectedUrl w ctx);
      Output "webUrl" (OutString (selectedUrl w ctx))].

End Stages.

(** ** Concrete worlds *)

Module Examples.

Import JsString Host.

Definition theCtx : Ctx :=
  {| input := {| composeFile := "docker-compose.yml"; workDir := None |};
     workspacePath := "/workspace" |}.

Fixpoint sameArgs (a b : list string) : bool :=
  match a, b with
  | [], [] => true
  | x :: a', y :: b' => String.eqb x y && sameArgs a' b'
  | _, _ => false
  end.

(** A child that writes nothing and exits with 0. *)
Definition quiet : ProcRun := {| chunks := []; exitCode := Some 0%Z |}.

(** A port query that prints one line. *)
Definition listing (line : string) : ProcRun :=
  {| chunks := [(stdout, line ++ String LF EmptyString)%string];
     exitCode := Some 0%Z |}.

(** The world in which the manifest is [manifest] ([None]: no such file),
    [docker compose up] runs as [up], and the port query of a service
    prints the line [published] gives for it, if any. *)
Definition world (manifest : option ParseOutcome) (up : ProcRun)
    (published : list (string * string)) : World :=
  {| path_join := fun dir file => (dir ++ "/" ++ file)%string;
     existsSync := fun _ => match manifest with
                            | Some _ => true
                            | None => false
                            end;
     loadServices := fun _ => match manifest with
                              | Some p => p
                              | None => NoServices
                              end;
     run := fun file args _ =>
       if String.eqb file "/usr/bin/docker" then up
       else
         match find (fun e => sameArgs args
                                ["-c"; PortsAction.portCommand (fst e)])
                 published with
         | Some e => listing (snd e)
         | None => quiet
         end |}.

(** The scenario of the specification: [web] publishes 80 on 32768, [db]
    publishes nothing. *)
Definition webAndDb : World :=
  world (Some (Services ["web"; "db"])) quiet
    [("web", "80/tcp -> 0.0.0.0:32768")].

(** A manifest that declares [web] and then a service named [1]; both
    publish a port. *)
Definition numericName : World :=
  world (Some (Services ["web"; "1"])) quiet
    [("web", "80/tcp -> 0.0.0.0:8080"); ("1", "80/tcp -> 0.0.0.0:9090")].

(** A manifest whose only service is named [__proto__]. *)
Definition protoName : World :=
  world (Some (Services ["__proto__"])) quiet
    [("__proto__", "80/tcp -> 0.0.0.0:8080")].

(** [docker compose up] fails with exit code 1. *)
Definition failingBuild : World :=
  world (Some (Services ["web"]))
    {| chunks := [(stderr, "pull access denied")]; exitCode := Some 1%Z |}
    [("web", "80/tcp -> 0.0.0.0:8080")].

(** The lines of a port listing: a TCP binding, the same port on the IPv6
    wildcard, a UDP binding, an empty line, and a second TCP binding. *)
Definition portLines : list string :=
  ["80/tcp -> 0.0.0.0:32768";
   "80/tcp -> [::]:32768";
   "53/udp -> 0.0.0.0:53";
   EmptyString;
   "443/tcp -> 127.0.0.1:8443"].

(** No manifest at the resolved path. *)
Definition missingManifest : World := world None quiet [].

(** A manifest that does not parse. *)
Definition malformedManifest : World :=
  world (Some (ParseThrows "YAMLException: bad indentation")) quiet [].

End Examples.

(** ** Vocabulary of the further properties *)

Module Variations.

Import JsString Host Run Stages.

(** The same world, but for the exit codes of the port queries. *)
Definition withPortQueryExit (code : list string -> option Z) (w : World)
  : World :=
  {| path_join := path_join w;
     existsSync := existsSync w;
     loadServices := loadServices w;
     run := fun file args cwd =>
              if isPortQuery (Spawn file args cwd)
              then {| chunks := chunks (run w file args cwd);
                      exitCode := code args |}
              else run w file args cwd |}.

(** The number of colons of a string. *)
Fixpoint colons (s : string) : nat :=
  match s with
  | EmptyString => 0
  | String c s' => (if Ascii.eqb c ":"%char then 1 else 0) + colons s'
  end.

(** The last character of a string. *)
Fixpoint lastChar (s : string) : option ascii :=
  match s with
  | EmptyString => None
  | String c EmptyString => Some c
  | String _ s' => lastChar s'
  end.

(** The first character of a string. *)
Definition firstChar (s : string) : option ascii :=
  match s with
  | EmptyString => None
  | String c _ => Some c
  end.

(** The log entries of a list of events that are errors. *)
Definition errorLogs (t : list Event) : list Event := filter isErrorLog t.

(** The second version of the action, stage by stage. *)
Definition buildParseLog (w : World) (ctx : Ctx) : list Event :=
  match loadServices w (composePathOf w ctx) with
  | ParseThrows err =>
      [Log warn ("Failed to parse compose file for service names: " ++ err)]
  | NoServices => []
  | Services created =>
      [Log info ("Detected services in compose file: "
                 ++ join ", " (JsObject.ownKeys created))]
  end.

Definition buildBeforeUp (w : World) (ctx : Ctx) : list Event :=
  Log info ("composeFile from user: " ++ composeFile (input ctx))
  :: Log info ("Workspace path: " ++ cwdOf ctx)
  :: Log info ("Resolved composePath: " ++ composePathOf w ctx)
  :: LoadYaml (composePathOf w ctx)
  :: buildParseLog w ctx
  ++ flat_map (removalBlock w) (serviceNames w ctx)
  ++ [Log info "Starting Docker Compose with rebuild..."].

Definition buildUpForwarded (c : Stream * string) : list Event :=
  match fst c with
  | stdout => [Log info ("DOCKER OUT: " ++ snd c)]
  | stderr => trace (BuildAction.upStderr (snd c))
  end.

Definition buildUpEvents (w : World) (ctx : Ctx) : list Event :=
  upCall w ctx
  :: flat_map buildUpForwarded (chunks (upRun w ctx))
  ++ [if succeeded (exitCode (upRun w ctx))
      then Log info "Docker Compose executed successfully."
      else Log error (upFailure (exitCode (upRun w ctx)))].

(** One of the three markers of routine output occurs in [str]. *)
Definition hasMarker (str : string) : Prop :=
  exists marker before after,
    In marker ["Creating"; "Created"; "level=warning"]
    /\ str = (before ++ marker ++ after)%string.


(** Two worlds that differ in how the port listing of a service arrives:
    in one piece, or cut in the middle of a line with a chunk of the error
    channel in between. *)
Definition listingRun (cs : list (Stream * string)) : World :=
  {| path_join := fun dir file => (dir ++ "/" ++ file)%string;
     existsSync := fun _ => true;
     loadServices := fun _ => Services ["web"];
     run := fun file _ _ =>
              if String.eqb file "/usr/bin/docker" then Examples.quiet
              else {| chunks := cs; exitCode := Some 0%Z |} |}.

Definition inOnePiece : World :=
  listingRun [(stdout, "80/tcp -> 0.0.0.0:32768" ++ String LF EmptyString)%string].

Definition inTwoPieces : World :=
  listingRun [(stdout, "80/tcp -> 0.0.");
              (stderr, "warning");
              (stdout, "0.0:32768" ++ String LF EmptyString)%string].

End Variations.

(* ================================================================== *)
(** * Facts *)
(* ================================================================== *)

Section StringFacts.
Import JsString Run.

Lemma append_nil_r (s : string) : (s ++ "")%string = s.
Proof. induction s; simpl; congruence. Qed.

Lemma append_assoc (a b c : string) :
  ((a ++ b) ++ c)%string = (a ++ (b ++ c))%string.
Proof. induction a; simpl; congruence. Qed.

Lemma allChars_append p (a b : string) :
  allChars p (a ++ b) = allChars p a && allChars p b.
Proof.
  induction a as [|c a IH]; simpl; [reflexivity|].
  now rewrite IH, andb_assoc.
Qed.

Lemma startsWith_spec (p s : string) :
  startsWith p s = true <-> exists r, s = (p ++ r)%string.
Proof.
  revert s. induction p as [|a p IH]; intros s; simpl.
  - split; [intros _; now exists s | reflexivity].
  - destruct s as [|b s].
    + split; [discriminate | intros [r Hr]; discriminate].
    + rewrite andb_true_iff, IH. split.
      * intros [E [r ->]]. apply Ascii.eqb_eq in E. subst. now exists r.
      * intros [r Hr]. injection Hr as -> ->. split; [apply Ascii.eqb_refl|].
        now exists r.
Qed.

(** [includes] is the substring test. *)
Lemma includes_spec (needle s : string) :
  includes needle s = true <->
  exists a b, s = (a ++ needle ++ b)%string.
Proof.
  induction s as [|c s IH].
  - simpl. rewrite orb_false_r, startsWith_spec. split.
    + intros [r Hr]. now exists "", r.
    + intros [a [b H]]. destruct a; [now exists b|discriminate].
  - cbn [includes]. rewrite orb_true_iff, startsWith_spec, IH. split.
    + intros [[r Hr] | [a [b Hab]]].
      * now exists "", r.
      * exists (String c a), b. simpl. now rewrite Hab.
    + intros [a [b H]]. destruct a as [|c' a]; simpl in H.
      * left. now exists b.
      * right. injection H as -> ->. now exists a, b.
Qed.

Lemma split_line (x s : string) :
  noLF x = true ->
  split LF (x ++ String LF s) = x :: split LF s.
Proof.
  induction x as [|c x IH]; simpl; intros H.
  - reflexivity.
  - apply andb_true_iff in H. destruct H as [Hc Hx].
    apply negb_true_iff in Hc. rewrite Hc, (IH Hx). reflexivity.
Qed.

Lemma split_last (x : string) : noLF x = true -> split LF x = [x].
Proof.
  induction x as [|c x IH]; simpl; intros H; [reflexivity|].
  apply andb_true_iff in H. destruct H as [Hc Hx].
  apply negb_true_iff in Hc. now rewrite Hc, (IH Hx).
Qed.

(** Splitting at line feeds what was joined with line feeds gives the
    lines back. *)
Lemma split_join (lines : list string) :
  lines <> [] -> Forall (fun l => noLF l = true) lines ->
  split LF (join (String LF "") lines) = lines.
Proof.
  intros Hne H. induction H as [|x lines Hx Hl IH]; [congruence|].
  destruct lines as [|y lines].
  - simpl. now apply split_last.
  - change (join (String LF "") (x :: y :: lines))
      with (x ++ String LF (join (String LF "") (y :: lines)))%string.
    rewrite (split_line _ _ Hx), IH; [reflexivity | discriminate].
Qed.

Lemma trimStart_keeps (u v : string) c :
  isWhiteSpace c = false -> truthy (trimStart (u ++ String c v)) = true.
Proof.
  intros Hc. induction u as [|a u IH]; simpl.
  - now rewrite Hc.
  - destruct (isWhiteSpace a); [exact IH | reflexivity].
Qed.

Lemma truthy_reverse s : truthy (reverse s) = truthy s.
Proof.
  destruct s as [|c s]; simpl; [reflexivity|].
  now destruct (reverse s).
Qed.

(** A string whose first character is no white space is not trimmed
    away. *)
Lemma trim_truthy c (s : string) :
  isWhiteSpace c = false -> truthy (trim (String c s)) = true.
Proof.
  intros Hc. unfold trim, trimEnd. simpl trimStart at 2. rewrite Hc.
  rewrite truthy_reverse. simpl reverse. now apply trimStart_keeps.
Qed.

Lemma isDigit_not_space c : isDigit c = true -> isWhiteSpace c = false.
Proof.
  unfold isDigit, isWhiteSpace. intros H.
  apply andb_true_iff in H. destruct H as [H1 H2].
  apply Nat.leb_le in H1. apply Nat.leb_le in H2.
  repeat rewrite orb_false_iff. repeat split.
  - apply andb_false_iff. right. apply Nat.leb_gt. lia.
  - apply Nat.eqb_neq. lia.
  - apply Nat.eqb_neq. lia.
Qed.
End StringFacts.

Section RegexFacts.
Import JsString Regex.

Lemma stripPrefix_spec (p s s' : string) :
  stripPrefix p s = Some s' <-> s = (p ++ s')%string.
Proof.
  revert s. induction p as [|a p IH]; intros s; simpl.
  - split; congruence.
  - destruct s as [|b s]; [split; discriminate|].
    destruct (Ascii.eqb a b) eqn:E.
    + apply Ascii.eqb_eq in E. subst b. rewrite IH. split; congruence.
    + apply Ascii.eqb_neq in E. split; [discriminate | congruence].
Qed.

Section Plus.
Context {R : Type} (cls : ascii -> bool) (k : string -> string -> option R).

(** What a successful repetition took: at least one character, all of
    the class, and the continuation accepted the rest. *)
Lemma plus_sound s : forall taken r,
  plus cls k taken s = Some r ->
  exists pre rest,
    s = (pre ++ rest)%string /\ truthy pre = true /\
    allChars cls pre = true /\ k (taken ++ pre)%string rest = Some r.
Proof.
  induction s as [|c s IH]; intros taken r; simpl; [discriminate|].
  destruct (cls c) eqn:Hc; [|discriminate].
  destruct (plus cls k (taken ++ String c "") s) eqn:E.
  - intros H. injection H as ->.
    destruct (IH _ _ E) as (pre & rest & -> & _ & Hp & Hk).
    exists (String c pre), rest. simpl. rewrite Hc, Hp.
    rewrite append_assoc in Hk. auto.
  - intros Hk. exists (String c ""), s. simpl. rewrite Hc. auto.
Qed.

(** A repetition succeeds as soon as some split lets the continuation
    succeed. *)
Lemma plus_complete pre : forall taken rest r,
  truthy pre = true -> allChars cls pre = true ->
  k (taken ++ pre)%string rest = Some r ->
  exists r', plus cls k taken (pre ++ rest) = Some r'.
Proof.
  induction pre as [|c pre IH]; intros taken rest r; simpl;
    [discriminate|].
  intros _ Hall Hk. apply andb_true_iff in Hall. destruct Hall as [Hc Hp].
  rewrite Hc.
  destruct pre as [|c' pre].
  - simpl. destruct (plus cls k (taken ++ String c "") rest); eauto.
  - destruct (IH (taken ++ String c "")%string rest r eq_refl Hp) as [r' Hr'].
    + now rewrite append_assoc.
    + rewrite Hr'. eauto.
Qed.
End Plus.

(** The characters of the class before the first one outside of it are
    determined by the string. *)
Lemma span_unique p (a a' : string) x x' (r r' : string) :
  allChars p a = true -> allChars p a' = true ->
  p x = false -> p x' = false ->
  (a ++ String x r)%string = (a' ++ String x' r')%string ->
  a = a' /\ x = x' /\ r = r'.
Proof.
  revert a'. induction a as [|c a IH]; intros [|c' a']; simpl;
    intros Ha Ha' Hx Hx' E.
  - injection E as -> ->. auto.
  - injection E as -> _. apply andb_true_iff in Ha'. destruct Ha'. congruence.
  - injection E as -> _. apply andb_true_iff in Ha. destruct Ha. congruence.
  - injection E as -> E. apply andb_true_iff in Ha. apply andb_true_iff in Ha'.
    destruct Ha as [_ Ha], Ha' as [_ Ha'].
    destruct (IH a' Ha Ha' Hx Hx' E) as (-> & -> & ->). auto.
Qed.
End RegexFacts.

(** [Object.keys({ b: 0, 10: 0, a: 0, 9: 0, '01': 0, 4294967295: 0 })] *)
Example ownKeys_mixed :
  JsObject.ownKeys ["b"; "10"; "a"; "9"; "01"; "4294967295"]
  = ["9"; "10"; "b"; "a"; "01"; "4294967295"].
Proof. reflexivity. Qed.

(** [var o = {}; o.web = 1; o['__proto__'] = []; o.db = 2; o.web = 3] *)
Example set_sequence :
  JsObject.set
    (JsObject.set (JsObject.set (JsObject.set JsObject.empty "web" 1)
                     "__proto__" 0) "db" 2) "web" 3
  = [("web", 3); ("db", 2)].
Proof. reflexivity. Qed.

Section OrderFacts.
Import JsObject.
Context {A : Type} (key : A -> string).

Lemma insertByIndex_perm (x : N * A) l : Permutation (insertByIndex x l) (x :: l).
Proof.
  induction l as [|y l IH]; simpl; [reflexivity|].
  destruct (fst x <=? fst y)%N; [reflexivity|].
  rewrite IH. apply perm_swap.
Qed.

Lemma sortByIndex_perm (l : list (N * A)) : Permutation (sortByIndex l) l.
Proof.
  induction l as [|x l IH]; simpl; [reflexivity|].
  rewrite insertByIndex_perm. now constructor.
Qed.

Lemma insertByIndex_sorted (x : N * A) l :
  StronglySorted byIndex l -> StronglySorted byIndex (insertByIndex x l).
Proof.
  induction 1 as [|y l Hs IH Hall]; simpl.
  - repeat constructor.
  - destruct (fst x <=? fst y)%N eqn:E.
    + apply N.leb_le in E. constructor; [now constructor|].
      constructor; [exact E|].
      eapply Forall_impl; [|exact Hall]. unfold byIndex. intros; lia.
    + apply N.leb_gt in E. constructor; [exact IH|].
      eapply Permutation_Forall; [symmetry; apply insertByIndex_perm|].
      constructor; [unfold byIndex; lia | exact Hall].
Qed.

Lemma sortByIndex_sorted (l : list (N * A)) : StronglySorted byIndex (sortByIndex l).
Proof.
  induction l; simpl; [constructor | now apply insertByIndex_sorted].
Qed.

(** Sorting leaves a sorted list as it is. *)
Lemma sortByIndex_fixed (l : list (N * A)) : StronglySorted byIndex l -> sortByIndex l = l.
Proof.
  induction 1 as [|x l Hs IH Hall]; simpl; [reflexivity|].
  rewrite IH. destruct l as [|y l]; [reflexivity|]. simpl.
  inversion Hall as [|? ? Hxy _]; subst. unfold byIndex in Hxy.
  apply N.leb_le in Hxy. now rewrite Hxy.
Qed.

Lemma indexed_app l1 l2 : indexed key (l1 ++ l2) = indexed key l1 ++ indexed key l2.
Proof.
  induction l1 as [|x l1 IH]; simpl; [reflexivity|].
  destruct (arrayIndex (key x)); simpl; now rewrite IH.
Qed.

Lemma indexed_tagged l : Forall (tagged key) (indexed key l).
Proof.
  induction l as [|x l IH]; simpl; [constructor|].
  destruct (arrayIndex (key x)) eqn:E; [constructor|]; assumption.
Qed.

(** A list of tagged pairs is what [indexed] makes of its properties. *)
Lemma indexed_of_tagged (l : list (N * A)) :
  Forall (tagged key) l -> indexed key (map snd l) = l.
Proof.
  induction 1 as [|[n x] l Hx _ IH]; simpl; [reflexivity|].
  unfold tagged in Hx; simpl in Hx. now rewrite Hx, IH.
Qed.

Lemma named_of_tagged (l : list (N * A)) :
  Forall (tagged key) l -> named key (map snd l) = [].
Proof.
  induction 1 as [|[n x] l Hx _ IH]; simpl; [reflexivity|].
  unfold tagged in Hx; simpl in Hx. unfold isArrayIndex. now rewrite Hx.
Qed.

Lemma indexed_named l : indexed key (named key l) = [].
Proof.
  induction l as [|x l IH]; simpl; [reflexivity|].
  unfold isArrayIndex. destruct (arrayIndex (key x)) eqn:E; simpl; [exact IH|].
  now rewrite E.
Qed.

Lemma named_app l1 l2 : named key (l1 ++ l2) = named key l1 ++ named key l2.
Proof. apply filter_app. Qed.

Lemma indexed_perm_named l :
  Permutation (map snd (indexed key l) ++ named key l) l.
Proof.
  induction l as [|x l IH]; simpl; [reflexivity|].
  unfold isArrayIndex.
  destruct (arrayIndex (key x)); simpl.
  - now constructor.
  - rewrite <- Permutation_middle. now constructor.
Qed.

(** Enumeration neither loses nor repeats a property. *)
Lemma ownOrder_perm l : Permutation (ownOrder key l) l.
Proof.
  unfold ownOrder.
  rewrite (Permutation_map snd (sortByIndex_perm (indexed key l))).
  apply indexed_perm_named.
Qed.

Lemma indexed_none l :
  Forall (fun x => isArrayIndex (key x) = false) l -> indexed key l = [].
Proof.
  induction 1 as [|x l Hx _ IH]; simpl; [reflexivity|].
  unfold isArrayIndex in Hx. now destruct (arrayIndex (key x)).
Qed.

Lemma named_all l :
  Forall (fun x => isArrayIndex (key x) = false) l -> named key l = l.
Proof.
  induction 1 as [|x l Hx _ IH]; simpl; [reflexivity|].
  rewrite Hx. simpl. now f_equal.
Qed.

(** The shape of an enumeration: the properties whose key is an array
    index, in ascending order of index, then the others as created. *)
Lemma ownOrder_shape l :
  exists idx,
    ownOrder key l = map snd idx ++ named key l
    /\ StronglySorted byIndex idx
    /\ Forall (tagged key) idx
    /\ Permutation idx (indexed key l).
Proof.
  exists (sortByIndex (indexed key l)).
  split; [reflexivity|]. split; [apply sortByIndex_sorted|].
  split; [|apply sortByIndex_perm].
  eapply Permutation_Forall; [symmetry; apply sortByIndex_perm|].
  apply indexed_tagged.
Qed.

(** Without array indices among the keys, enumeration order is
    creation order. *)
Lemma ownOrder_named l :
  Forall (fun x => isArrayIndex (key x) = false) l -> ownOrder key l = l.
Proof.
  intros H. unfold ownOrder. now rewrite (indexed_none l H), (named_all l H).
Qed.

Lemma filter_sorted (p : N * A -> bool) l :
  StronglySorted byIndex l -> StronglySorted byIndex (filter p l).
Proof.
  induction 1 as [|x l Hs IH Hall]; simpl; [constructor|].
  destruct (p x); [|exact IH].
  constructor; [exact IH|].
  apply Forall_forall. intros y Hy. apply filter_In in Hy.
  rewrite Forall_forall in Hall. now apply Hall.
Qed.

Lemma filter_map_snd (p : A -> bool) (l : list (N * A)) :
  filter p (map snd l) = map snd (filter (fun q => p (snd q)) l).
Proof.
  induction l as [|q l IH]; simpl; [reflexivity|].
  destruct (p (snd q)); simpl; now rewrite IH.
Qed.

Lemma named_filter_named (p : A -> bool) l :
  named key (filter p (named key l)) = filter p (named key l).
Proof.
  unfold named. induction l as [|x l IH]; simpl; [reflexivity|].
  destruct (negb (isArrayIndex (key x))) eqn:E; simpl; [|exact IH].
  destruct (p x); simpl; [|exact IH]. rewrite E. now f_equal.
Qed.

(** What [ownOrder] returns is in enumeration order already, and so is
    any selection from it. *)
Lemma ownOrder_filter_fixed (p : A -> bool) l :
  ownOrder key (filter p (ownOrder key l)) = filter p (ownOrder key l).
Proof.
  unfold ownOrder at 2 3. rewrite filter_app, filter_map_snd.
  set (I := filter (fun q => p (snd q)) (sortByIndex (indexed key l))).
  assert (HI : Forall (tagged key) I).
  { apply Forall_forall. intros q Hq. apply filter_In in Hq.
    destruct Hq as [Hq _].
    pose proof (indexed_tagged l) as Ht. rewrite Forall_forall in Ht.
    apply Ht. eapply Permutation_in; [apply sortByIndex_perm | exact Hq]. }
  assert (HS : StronglySorted byIndex I)
    by (apply filter_sorted, sortByIndex_sorted).
  pose proof (named_filter_named p l) as HN.
  assert (HX : indexed key (filter p (named key l)) = []).
  { apply indexed_none. apply Forall_forall. intros x Hx.
    apply filter_In in Hx. destruct Hx as [Hx _].
    unfold named in Hx. apply filter_In in Hx. destruct Hx as [_ Hx].
    now apply negb_true_iff in Hx. }
  unfold ownOrder.
  rewrite indexed_app, named_app, (indexed_of_tagged I HI),
    (named_of_tagged I HI), HX, app_nil_r, HN. simpl.
  now rewrite (sortByIndex_fixed I HS).
Qed.

Lemma ownOrder_fixed l : ownOrder key (ownOrder key l) = ownOrder key l.
Proof.
  pose proof (ownOrder_filter_fixed (fun _ => true) l) as H.
  assert (E : forall m : list A, filter (fun _ => true) m = m)
    by (induction m; simpl; congruence).
  now rewrite !E in H.
Qed.
End OrderFacts.

Section OrderMap.
Import JsObject.
Context {A B : Type} (key : B -> string) (f : A -> B).

Lemma indexed_map l :
  indexed key (map f l) =
  map (fun q => (fst q, f (snd q))) (indexed (fun a => key (f a)) l).
Proof.
  induction l as [|x l IH]; simpl; [reflexivity|].
  destruct (arrayIndex (key (f x))); simpl; now rewrite IH.
Qed.

Lemma insertByIndex_map (x : N * A) l :
  insertByIndex (fst x, f (snd x)) (map (fun q => (fst q, f (snd q))) l) =
  map (fun q => (fst q, f (snd q))) (insertByIndex x l).
Proof.
  induction l as [|y l IH]; simpl; [reflexivity|].
  destruct (fst x <=? fst y)%N; simpl; [reflexivity|]. now rewrite IH.
Qed.

Lemma sortByIndex_map (l : list (N * A)) :
  sortByIndex (map (fun q => (fst q, f (snd q))) l) =
  map (fun q => (fst q, f (snd q))) (sortByIndex l).
Proof.
  induction l as [|x l IH]; simpl; [reflexivity|].
  now rewrite IH, insertByIndex_map.
Qed.

(** Enumeration commutes with a relabelling of the properties. *)
Lemma ownOrder_map l :
  ownOrder key (map f l) = map f (ownOrder (fun a => key (f a)) l).
Proof.
  unfold ownOrder, named.
  rewrite indexed_map, sortByIndex_map, map_app, !map_map. simpl.
  f_equal. induction l as [|x l IH]; simpl; [reflexivity|].
  destruct (negb (isArrayIndex (key (f x)))); simpl; now rewrite IH.
Qed.
End OrderMap.

Section PortLineFacts.
Import JsString Regex Host Run.

Lemma isDigits_split s : isDigits s = true <-> truthy s = true /\ allChars isDigit s = true.
Proof. unfold isDigits. apply andb_true_iff. Qed.

Lemma exec_lit l p s caps :
  exec (Lit l :: p) (l ++ s) caps = exec p s caps.
Proof.
  cbn [exec]. now rewrite (proj2 (stripPrefix_spec l (l ++ s) s) eq_refl).
Qed.

Lemma exec_plus cls p pre rest caps r :
  truthy pre = true -> allChars cls pre = true ->
  exec p rest caps = Some r ->
  exists r', exec (Plus cls :: p) (pre ++ rest) caps = Some r'.
Proof.
  intros H1 H2 H. cbn [exec].
  now apply (plus_complete cls _ pre "" rest r H1 H2).
Qed.

Lemma exec_capture cls p pre rest caps r :
  truthy pre = true -> allChars cls pre = true ->
  exec p rest (pre :: caps) = Some r ->
  exists r', exec (Capture cls :: p) (pre ++ rest) caps = Some r'.
Proof.
  intros H1 H2 H. cbn [exec].
  now apply (plus_complete cls _ pre "" rest r H1 H2).
Qed.

Lemma portLine_sound line caps :
  matchAll portLine line = Some caps ->
  exists c h, caps = [c; h] /\ MatchesPortLine line c h.
Proof.
  unfold matchAll, portLine. cbn [exec]. intros H.
  apply plus_sound in H. destruct H as (c & r1 & -> & Hc1 & Hc2 & H).
  cbn [String.append] in H.
  destruct (stripPrefix "/tcp -> " r1) as [r1'|] eqn:E1; [|discriminate].
  apply stripPrefix_spec in E1. subst r1.
  apply plus_sound in H. destruct H as (host & r2 & -> & Hh1 & Hh2 & H).
  destruct (stripPrefix ":" r2) as [r2'|] eqn:E2; [|discriminate].
  apply stripPrefix_spec in E2. subst r2.
  apply plus_sound in H. destruct H as (h & r3 & -> & Hp1 & Hp2 & H).
  cbn [String.append] in H.
  destruct r3; [|discriminate]. injection H as <-.
  exists c, h. split; [reflexivity|]. exists host.
  rewrite append_nil_r, !isDigits_split. repeat split; assumption || reflexivity.
Qed.

Lemma portLine_unique line c h c' h' :
  MatchesPortLine line c h -> MatchesPortLine line c' h' ->
  c = c' /\ h = h'.
Proof.
  intros (host & -> & Hc & _ & Hh & Hp) (host' & E & Hc' & _ & Hh' & Hp').
  apply isDigits_split in Hc, Hc'. destruct Hc as [_ Hc], Hc' as [_ Hc'].
  cbn [String.append] in E.
  destruct (span_unique isDigit c c' "/"%char "/"%char _ _ Hc Hc' eq_refl eq_refl E)
    as (-> & _ & E').
  injection E' as E'.
  destruct (span_unique notColon host host' ":"%char ":"%char _ _ Hh Hh' eq_refl eq_refl E')
    as (-> & _ & ->).
  auto.
Qed.

Lemma portLine_complete line c h :
  MatchesPortLine line c h -> matchAll portLine line = Some [c; h].
Proof.
  intros Hm. pose proof Hm as (host & -> & Hc & Hh1 & Hh2 & Hp).
  apply isDigits_split in Hc, Hp. destruct Hc as [Hc1 Hc2], Hp as [Hp1 Hp2].
  assert (Hex : exists caps,
             matchAll portLine (c ++ "/tcp -> " ++ host ++ ":" ++ h) = Some caps).
  { unfold matchAll, portLine.
    destruct (exec_capture isDigit [] h "" [c] [c; h] Hp1 Hp2 eq_refl)
      as [r3 H3].
    rewrite append_nil_r in H3. rewrite <- (exec_lit ":") in H3.
    destruct (exec_plus notColon _ host _ _ _ Hh1 Hh2 H3) as [r2 H2].
    rewrite <- (exec_lit "/tcp -> ") in H2.
    exact (exec_capture isDigit _ c _ _ _ Hc1 Hc2 H2). }
  destruct Hex as [caps Hcaps]. rewrite Hcaps. f_equal.
  destruct (portLine_sound _ _ Hcaps) as (c' & h' & -> & Hm').
  destruct (portLine_unique _ _ _ _ _ Hm Hm') as [-> ->]. reflexivity.
Qed.

(** The matcher accepts the lines of the grammar and no other, and its
    groups are the two digit groups. *)
Lemma portLine_match line caps :
  matchAll portLine line = Some caps <->
  exists c h, caps = [c; h] /\ MatchesPortLine line c h.
Proof.
  split; [apply portLine_sound|].
  intros (c & h & -> & H). now apply portLine_complete.
Qed.
End PortLineFacts.

Section MonadFacts.
Import Host.

Lemma bind_returned {A B : Type} (m : M A) (f : A -> M B) t a :
  m = (t, Returned a) -> bind m f = (t ++ trace (f a), outcome (f a)).
Proof. intros ->. unfold bind, trace, outcome. now destruct (f a). Qed.

Lemma bind_thrown {A B : Type} (m : M A) (f : A -> M B) t msg :
  m = (t, Thrown msg) -> bind m f = (t, Thrown msg).
Proof. now intros ->. Qed.

Lemma bind_emit {B : Type} e (f : unit -> M B) :
  bind (emit e) f = (e :: trace (f tt), outcome (f tt)).
Proof. unfold emit. now rewrite (bind_returned _ f [e] tt eq_refl). Qed.

(** A loop whose body never throws runs every iteration. *)
Lemma forEach_all {A : Type} (body : A -> M unit) (events : A -> list Event) l :
  (forall x, body x = (events x, Returned tt)) ->
  forEach l body = (flat_map events l, Returned tt).
Proof.
  intros Hb. induction l as [|x l IH]; simpl; [reflexivity|].
  rewrite (bind_returned _ _ _ _ (Hb x)), IH. reflexivity.
Qed.

Lemma foldM_all {A S : Type} (body : S -> A -> M S)
    (events : A -> list Event) (step : S -> A -> S) l :
  (forall s x, body s x = (events x, Returned (step s x))) ->
  forall s, foldM body l s = (flat_map events l, Returned (fold_left step l s)).
Proof.
  intros Hb. induction l as [|x l IH]; intros s; simpl; [reflexivity|].
  rewrite (bind_returned _ _ _ _ (Hb s x)), IH. reflexivity.
Qed.
End MonadFacts.

Lemma flat_map_single {A B : Type} (f : A -> B) l :
  flat_map (fun x => [f x]) l = map f l.
Proof. induction l; simpl; congruence. Qed.

Section StageFacts.
Import JsString Host Run Stages.
Variable w : World.

Lemma forward_chunks (cs : list (Stream * string)) :
  forEach cs
    (fun c => match fst c with
              | stdout => log info ("DOCKER OUT: " ++ snd c)
              | stderr => log warn ("DOCKER WARN: " ++ snd c)
              end)
  = (map forwarded cs, Returned tt).
Proof.
  rewrite (forEach_all _ (fun c => [forwarded c])).
  - apply f_equal2; [apply flat_map_single | reflexivity].
  - intros [[] d]; reflexivity.
Qed.

Lemma removeContainers_eq service :
  PortsAction.removeContainers w service = (removalBlock w service, Returned tt).
Proof.
  unfold PortsAction.removeContainers. rewrite bind_emit.
  rewrite (bind_returned _ _ _ _ (forward_chunks _)).
  reflexivity.
Qed.

(** The removal stage: one block per service, one after the other, and
    never a throw. *)
Lemma reclaim_eq names :
  forEach names (PortsAction.removeContainers w)
  = (flat_map (removalBlock w) names, Returned tt).
Proof. apply forEach_all, removeContainers_eq. Qed.

Lemma collect_eq cs : forall output,
  foldM PortsAction.collect cs output
  = (stderrWarnings cs, Returned (output ++ stdoutOf cs)%string).
Proof.
  induction cs as [|[[] d] cs IH]; intros output; simpl.
  - now rewrite append_nil_r.
  - cbn [foldM]. unfold PortsAction.collect at 1. cbn [fst snd].
    unfold ret at 1, bind. rewrite IH. simpl.
    now rewrite append_assoc.
  - cbn [foldM]. unfold PortsAction.collect at 1. cbn [fst snd].
    unfold log, emit, ret, bind. rewrite IH. reflexivity.
Qed.

Lemma inspectService_eq table service :
  PortsAction.inspectService w table service
  = (queryBlock w service, Returned (assign w table service)).
Proof.
  unfold PortsAction.inspectService. rewrite bind_emit.
  rewrite (bind_returned _ _ _ _ (collect_eq _ _)). simpl.
  unfold queryBlock, assign, discovered, portRun, portCall.
  now rewrite app_nil_r.
Qed.

Lemma discovery_eq names table :
  foldM (PortsAction.inspectService w) names table
  = (flat_map (queryBlock w) names, Returned (fold_left (assign w) names table)).
Proof. apply foldM_all. intros; apply inspectService_eq. Qed.

Lemma upStderr_eq str :
  PortsAction.upStderr str = (trace (PortsAction.upStderr str), Returned tt).
Proof.
  unfold PortsAction.upStderr.
  now destruct (includes "Creating" str || includes "Created" str
                || includes "level=warning" str).
Qed.

Variable ctx : Ctx.

Lemma composeUp_eq :
  PortsAction.composeUp w (composePathOf w ctx) (cwdOf ctx)
  = (upEvents w ctx,
     if succeeded (exitCode (upRun w ctx)) then Returned tt
     else Thrown (upFailure (exitCode (upRun w ctx)))).
Proof.
  unfold PortsAction.composeUp. rewrite bind_emit.
  rewrite (bind_returned _ _ (flat_map upForwarded (chunks (upRun w ctx))) tt).
  - unfold upEvents, upCall. fold (upRun w ctx).
    destruct (exitCode (upRun w ctx)) as [[|p|p]|]; reflexivity.
  - apply forEach_all. intros [[] d]; [reflexivity | apply upStderr_eq].
Qed.

Lemma parseServices_eq :
  PortsAction.parseServices w (composePathOf w ctx)
  = (LoadYaml (composePathOf w ctx) :: parseLog w ctx,
     Returned (serviceNames w ctx)).
Proof.
  unfold PortsAction.parseServices, parseLog, serviceNames.
  rewrite bind_emit.
  destruct (loadServices w (composePathOf w ctx)); reflexivity.
Qed.

(** The whole run, stage by stage. *)
Lemma handler_eq :
  PortsAction.handler w ctx =
  if existsSync w (composePathOf w ctx) then
    if succeeded (exitCode (upRun w ctx)) then
      (beforeUp w ctx ++ upEvents w ctx ++ afterUp w ctx,
       Returned {| PortsAction.webUrl := selectedUrl w ctx;
                   PortsAction.ports := portTable w ctx |})
    else
      (beforeUp w ctx ++ upEvents w ctx,
       Thrown (upFailure (exitCode (upRun w ctx))))
  else
    ([Log info ("Compose file: " ++ composePathOf w ctx)],
     Thrown ("Compose file not found: " ++ composePathOf w ctx)).
Proof.
  unfold PortsAction.handler.
  fold (cwdOf ctx). fold (composePathOf w ctx).
  unfold log at 1. rewrite bind_emit.
  destruct (existsSync w (composePathOf w ctx)).
  2: reflexivity.
  rewrite (bind_returned _ _ [] tt eq_refl).
  rewrite (bind_returned _ _ _ _ parseServices_eq).
  rewrite (bind_returned _ _ _ _ (reclaim_eq _)).
  unfold log at 1. rewrite bind_emit.
  destruct (succeeded (exitCode (upRun w ctx))) eqn:Hup.
  - rewrite (bind_returned _ _ (upEvents w ctx) tt)
      by (rewrite composeUp_eq, Hup; reflexivity).
    rewrite (bind_returned _ _ _ _ (discovery_eq _ _)).
    unfold beforeUp, afterUp, selectedUrl, portTable. simpl.
    repeat (rewrite <- app_assoc; simpl). reflexivity.
  - rewrite (bind_thrown _ _ (upEvents w ctx)
               (upFailure (exitCode (upRun w ctx))))
      by (rewrite composeUp_eq, Hup; reflexivity).
    unfold beforeUp. simpl.
    repeat (rewrite <- app_assoc; simpl). reflexivity.
Qed.
End StageFacts.

Section EventFacts.
Import JsString Host Run Stages.

Variable p : Event -> bool.
Hypothesis Hp : ignoresLogs p.

Lemma filter_logs l : forallb isLog l = true -> filter p l = [].
Proof.
  induction l as [|[lvl msg| | |] l IH]; simpl; try discriminate; auto.
  intros H. now rewrite Hp, IH.
Qed.

Lemma logs_app l1 l2 :
  forallb isLog l1 = true -> forallb isLog l2 = true ->
  forallb isLog (l1 ++ l2) = true.
Proof. intros. rewrite forallb_app. now apply andb_true_iff. Qed.

Lemma logs_flat_map {A : Type} (f : A -> list Event) l :
  (forall x, forallb isLog (f x) = true) ->
  forallb isLog (flat_map f l) = true.
Proof.
  intros Hf. induction l; simpl; [reflexivity|]. now apply logs_app.
Qed.

Lemma logs_map {A : Type} (f : A -> Event) l :
  (forall x, isLog (f x) = true) -> forallb isLog (map f l) = true.
Proof. intros Hf. induction l; simpl; [reflexivity|]. now rewrite Hf. Qed.

(** Blocks of one action followed by log entries. *)
Lemma filter_blocks {A : Type} (first : A -> Event) (rest : A -> list Event) l :
  (forall x, forallb isLog (rest x) = true) ->
  filter p (flat_map (fun x => first x :: rest x) l) = filter p (map first l).
Proof.
  intros Hr. induction l as [|x l IH]; simpl; [reflexivity|].
  rewrite filter_app, (filter_logs _ (Hr x)), IH. simpl.
  now destruct (p (first x)).
Qed.

Variables (w : World) (ctx : Ctx).

Lemma upStderr_logs str : forallb isLog (trace (PortsAction.upStderr str)) = true.
Proof.
  unfold PortsAction.upStderr.
  now destruct (includes "Creating" str || includes "Created" str
                || includes "level=warning" str).
Qed.

Lemma parseLog_logs : forallb isLog (parseLog w ctx) = true.
Proof. unfold parseLog. now destruct (loadServices _ _). Qed.

Lemma filter_beforeUp :
  filter p (beforeUp w ctx) =
  filter p (LoadYaml (composePathOf w ctx)
            :: map removalCall (serviceNames w ctx)).
Proof.
  unfold beforeUp. cbn [filter]. rewrite Hp.
  rewrite !filter_app, (filter_logs _ parseLog_logs). simpl.
  rewrite Hp, app_nil_r.
  rewrite (filter_blocks removalCall
           (fun s => map forwarded (chunks (removalRun w s)) ++
                     [Log info ("Removed any existing containers matching: " ++ s)]));
    [reflexivity|].
  intros s. apply logs_app; [|reflexivity].
  apply logs_map. now intros [[] d].
Qed.

Lemma filter_upEvents : filter p (upEvents w ctx) = filter p [upCall w ctx].
Proof.
  unfold upEvents. cbn [filter]. rewrite filter_logs; [reflexivity|].
  apply logs_app.
  - apply logs_flat_map. intros [[] d]; [reflexivity | apply upStderr_logs].
  - now destruct (succeeded _).
Qed.

Lemma filter_afterUp :
  filter p (afterUp w ctx) =
  filter p (map portCall (serviceNames w ctx)
            ++ [Output "ports" (OutPorts (portTable w ctx));
                Output "webUrl" (OutString (selectedUrl w ctx))]).
Proof.
  unfold afterUp. rewrite !filter_app. f_equal.
  - apply (filter_blocks portCall
             (fun s => stderrWarnings (chunks (portRun w s)))).
    intros s. apply logs_flat_map. now intros [[] d].
  - simpl. now rewrite !Hp.
Qed.
End EventFacts.

Section CallFacts.
Import JsString Host Run.

(** The recognisers tell the three kinds of children apart, whatever the
    service is called. *)
Lemma calls_told_apart (s : string) (w : World) (ctx : Ctx) :
  isRemoval (removalCall s) = true /\ isPortQuery (removalCall s) = false
  /\ isPortQuery (portCall s) = true /\ isRemoval (portCall s) = false
  /\ isRemoval (upCall w ctx) = false /\ isPortQuery (upCall w ctx) = false.
Proof. repeat split. Qed.

Lemma filter_all {A : Type} (q : A -> bool) l :
  (forall x, In x l -> q x = true) -> filter q l = l.
Proof.
  induction l as [|x l IH]; simpl; intros H; [reflexivity|].
  rewrite (H x (or_introl eq_refl)). f_equal. apply IH. auto.
Qed.

Lemma filter_map_none {A B : Type} (q : B -> bool) (f : A -> B) l :
  (forall x, q (f x) = false) -> filter q (map f l) = [].
Proof. intros H. induction l; simpl; [reflexivity|]. now rewrite H. Qed.

Lemma filter_map_all {A B : Type} (q : B -> bool) (f : A -> B) l :
  (forall x, q (f x) = true) -> filter q (map f l) = map f l.
Proof. intros H. induction l; simpl; [reflexivity|]. rewrite H. now f_equal. Qed.
End CallFacts.

Section TableFacts.
Import JsObject.
Context {V : Type} (f : string -> V).

Lemma hasOwn_In k (o : t V) : hasOwn k o = true <-> In k (map fst o).
Proof.
  unfold hasOwn. rewrite existsb_exists. split.
  - intros [[k' v] [Hin E]]. apply String.eqb_eq in E. simpl in E. subst.
    now apply (in_map fst) in Hin.
  - intros Hin. apply in_map_iff in Hin. destruct Hin as [[k' v] [E Hin]].
    simpl in E. subst. exists (k, v). split; [exact Hin|apply String.eqb_refl].
Qed.

Lemma update_keys k v (o : t V) : map fst (update k v o) = map fst o.
Proof.
  induction o as [|[k' v'] o IH]; simpl; [reflexivity|].
  destruct (String.eqb k k'); simpl; congruence.
Qed.

Lemma update_values k v k0 v0 (o : t V) :
  In (k0, v0) (update k v o) -> In (k0, v0) o \/ (k0 = k /\ v0 = v).
Proof.
  induction o as [|[k' v'] o IH]; simpl; [tauto|].
  destruct (String.eqb k k') eqn:E; simpl.
  - apply String.eqb_eq in E. subst k'.
    intros [H|H]; [injection H as <- <-|]; auto.
  - intros [H|H]; [auto|]. destruct (IH H); auto.
Qed.

(** Whatever the names, assignment creates keys among them only, and
    stores the value computed for the key. *)
Lemma set_keys (o : t V) k v k0 :
  In k0 (map fst (set o k v)) -> In k0 (map fst o) \/ k0 = k.
Proof.
  unfold set. destruct (String.eqb k "__proto__"); [auto|].
  destruct (hasOwn k o).
  - rewrite update_keys. auto.
  - rewrite map_app, in_app_iff. simpl. intuition.
Qed.

Lemma set_values (o : t V) k v k0 v0 :
  In (k0, v0) (set o k v) -> In (k0, v0) o \/ (k0 = k /\ v0 = v).
Proof.
  unfold set. destruct (String.eqb k "__proto__"); [auto|].
  destruct (hasOwn k o).
  - apply update_values.
  - rewrite in_app_iff. simpl. intros [H|[H|[]]]; [auto|].
    injection H as <- <-. auto.
Qed.

Lemma puts_keys names : forall (o : t V) k,
  In k (map fst (fold_left (put f) names o)) -> In k (map fst o) \/ In k names.
Proof.
  induction names as [|s names IH]; intros o k; simpl; [auto|].
  intros H. destruct (IH _ _ H) as [H'|H']; [|auto].
  destruct (set_keys _ _ _ _ H'); auto.
Qed.

Lemma puts_values names : forall (o : t V) k v,
  In (k, v) (fold_left (put f) names o) -> In (k, v) o \/ (In k names /\ v = f k).
Proof.
  induction names as [|s names IH]; intros o k v; simpl; [auto|].
  intros H. destruct (IH _ _ _ H) as [H'|[H' E]]; [|auto].
  destruct (set_values _ _ _ _ _ H') as [|[-> ->]]; auto.
Qed.

(** Distinct names, none of them a key yet, create one property each, in
    order, but for ["__proto__"], which creates none. *)
Lemma puts_fresh names : forall o : t V,
  NoDup names -> (forall s, In s names -> ~ In s (map fst o)) ->
  fold_left (put f) names o
  = o ++ map (fun s => (s, f s)) (filter Run.notProto names).
Proof.
  induction names as [|s names IH]; intros o Hnd Hfresh; simpl.
  - now rewrite app_nil_r.
  - inversion Hnd as [|? ? Hs Hnd']; subst.
    unfold put at 2, set, Run.notProto.
    destruct (String.eqb s "__proto__"); simpl.
    + apply IH; [exact Hnd'|]. intros s' Hs'. apply Hfresh. now right.
    + destruct (hasOwn s o) eqn:E.
      * apply hasOwn_In in E. exfalso. apply (Hfresh s); [now left|exact E].
      * rewrite IH; [now rewrite <- app_assoc|exact Hnd'|].
        intros s' Hs'. rewrite map_app, in_app_iff. simpl.
        intros [H|[H|[]]]; [apply (Hfresh s'); [now right|exact H]|].
        congruence.
Qed.
End TableFacts.

Section PortTableFacts.
Import JsString JsObject Host Run Stages.
Variables (w : World) (ctx : Ctx).

Lemma assign_put : assign w = put (discovered w).
Proof. reflexivity. Qed.

Lemma serviceNames_NoDup :
  NoDup (declared (loadServices w (composePathOf w ctx))) ->
  NoDup (serviceNames w ctx).
Proof.
  intros H. unfold serviceNames, ownKeys.
  eapply Permutation_NoDup; [symmetry; apply ownOrder_perm | exact H].
Qed.

(** The table of a manifest without repeated keys, property by
    property in creation order. *)
Lemma portTable_eq :
  NoDup (declared (loadServices w (composePathOf w ctx))) ->
  portTable w ctx
  = map (fun s => (s, discovered w s)) (filter notProto (serviceNames w ctx)).
Proof.
  intros H. unfold portTable. rewrite assign_put.
  apply (puts_fresh (discovered w) (serviceNames w ctx) JsObject.empty).
  - now apply serviceNames_NoDup.
  - intros s _ [].
Qed.

(** Its entries are enumerated in the order of the service names. *)
Lemma portTable_entries :
  NoDup (declared (loadServices w (composePathOf w ctx))) ->
  entries (portTable w ctx)
  = map (fun s => (s, discovered w s)) (filter notProto (serviceNames w ctx)).
Proof.
  intros H. rewrite (portTable_eq H). unfold entries.
  rewrite (ownOrder_map fst (fun s => (s, discovered w s))). simpl.
  unfold serviceNames, ownKeys. now rewrite ownOrder_filter_fixed.
Qed.
End PortTableFacts.

(** A listing as [docker port] prints it for a container that publishes
    port 80 on both address families and port 53 over UDP: the IPv6 line
    has more than one colon and the UDP line is not [/tcp]. *)
Example parsePorts_listing :
  PortsAction.parsePorts
    ("80/tcp -> 0.0.0.0:32768" ++ String JsString.LF
     ("80/tcp -> [::]:32768" ++ String JsString.LF
      ("53/udp -> 0.0.0.0:53" ++ String JsString.LF "")))
  = [ {| Host.hostPort := "32768"; Host.containerPort := "80" |} ].
Proof. reflexivity. Qed.

(** A carriage return before the line feed stays on the line, which then
    does not end with digits. *)
Example parsePorts_crlf :
  PortsAction.parsePorts
    ("80/tcp -> 0.0.0.0:32768"
     ++ String (ascii_of_nat 13) (String JsString.LF ""))
  = [].
Proof. reflexivity. Qed.

Section ParseFacts.
Import JsString Regex Host Run.

Lemma parseLine_acc acc line :
  PortsAction.parseLine acc line = acc ++ PortsAction.parseLine [] line.
Proof.
  unfold PortsAction.parseLine.
  destruct (truthy (trim line)); [|now rewrite app_nil_r].
  destruct (matchAll portLine line); [reflexivity | now rewrite app_nil_r].
Qed.

(** The mappings are pushed line by line, in the order of the lines. *)
Lemma parsePorts_lines output :
  PortsAction.parsePorts output
  = concat (map (PortsAction.parseLine []) (split LF output)).
Proof.
  unfold PortsAction.parsePorts.
  assert (G : forall lines acc,
             fold_left PortsAction.parseLine lines acc
             = acc ++ concat (map (PortsAction.parseLine []) lines)).
  { induction lines as [|l lines IH]; intros acc; simpl.
    - now rewrite app_nil_r.
    - rewrite IH, (parseLine_acc acc l). now rewrite <- app_assoc. }
  apply G.
Qed.

(** A line of the grammar starts with a digit, so the guard on the
    trimmed line lets it through. *)
Lemma matching_line_not_blank line c h :
  MatchesPortLine line c h -> truthy (trim line) = true.
Proof.
  intros (host & -> & Hc & _). apply isDigits_split in Hc.
  destruct Hc as [Hc1 Hc2]. destruct c as [|d c]; [discriminate|].
  simpl in Hc2. apply andb_true_iff in Hc2. destruct Hc2 as [Hd _].
  cbn [String.append]. apply trim_truthy. now apply isDigit_not_space.
Qed.

Lemma parseLine_accepts line c h :
  MatchesPortLine line c h ->
  PortsAction.parseLine [] line = [ {| hostPort := h; containerPort := c |} ].
Proof.
  intros H. unfold PortsAction.parseLine.
  now rewrite (matching_line_not_blank _ _ _ H), (portLine_complete _ _ _ H).
Qed.

Lemma parseLine_rejects line :
  (forall c h, ~ MatchesPortLine line c h) -> PortsAction.parseLine [] line = [].
Proof.
  intros H. unfold PortsAction.parseLine.
  destruct (truthy (trim line)); [|reflexivity].
  destruct (matchAll portLine line) eqn:E; [|reflexivity].
  destruct (portLine_sound _ _ E) as (c & h & _ & Hm). now destruct (H c h).
Qed.

Lemma parseLine_yields line : lineYields line (PortsAction.parseLine [] line).
Proof.
  destruct (matchAll portLine line) eqn:E.
  - destruct (portLine_sound _ _ E) as (c & h & _ & Hm).
    left. exists c, h. split; [exact Hm | now apply parseLine_accepts].
  - right. split; [|apply parseLine_rejects]; intros c h Hm;
      apply portLine_complete in Hm; congruence.
Qed.

Lemma parsePorts_digits output m :
  In m (PortsAction.parsePorts output) -> digitPorts m.
Proof.
  rewrite parsePorts_lines, in_concat. intros (ms & Hms & Hm).
  apply in_map_iff in Hms. destruct Hms as (line & <- & _).
  destruct (parseLine_yields line) as [(c & h & Hmatch & E) | [_ E]];
    rewrite E in Hm; [|destruct Hm].
  destruct Hm as [<-|[]]. destruct Hmatch as (host & _ & Hc & _ & _ & Hp).
  now split.
Qed.
End ParseFacts.

Section SelectionFacts.
Import JsString Host Run.

Lemma pickWebUrl_selects table : SelectsFirst table (PortsAction.pickWebUrl table).
Proof.
  induction table as [|[s [|m0 ms0]] table [IH1 IH2]]; split.
  - intros [|? ?] ? ? ? ? E; discriminate.
  - reflexivity.
  - intros [|e before] service m ms after E Hb; [discriminate|].
    injection E as E1 E2. subst e table. inversion Hb; subst.
    cbn [PortsAction.pickWebUrl]. now apply (IH1 before service m ms after).
  - intros H. inversion H; subst. cbn [PortsAction.pickWebUrl]. auto.
  - intros [|e before] service m ms after E Hb.
    + injection E as E1 E2 E3 E4. now subst.
    + injection E as E1 E2. subst e. inversion Hb as [|? ? He _]; subst.
      discriminate He.
  - intros H. inversion H as [|? ? He _]; subst. discriminate He.
Qed.

Lemma pickWebUrl_origin table :
  PortsAction.pickWebUrl table <> EmptyString ->
  exists service ms m,
    In (service, ms) table /\ In m ms /\
    PortsAction.pickWebUrl table = ("http://localhost:" ++ hostPort m)%string.
Proof.
  induction table as [|[s [|m0 ms0]] table IH]; simpl; intros H.
  - congruence.
  - destruct (IH H) as (s' & ms & m & Hin & Hm & E). exists s', ms, m. auto.
  - exists s, (m0 :: ms0), m0. simpl. auto.
Qed.
End SelectionFacts.

(* ================================================================== *)
(** * The properties of the specification *)
(* ================================================================== *)

Import JsString Host Run Stages.
Local Open Scope string_scope.
Local Open Scope list_scope.

Lemma isSpawn_ignoresLogs : ignoresLogs isSpawn.
Proof. intros lvl msg; reflexivity. Qed.
Lemma isOutput_ignoresLogs : ignoresLogs isOutput.
Proof. intros lvl msg; reflexivity. Qed.
Lemma isRemoval_ignoresLogs : ignoresLogs isRemoval.
Proof. intros lvl msg; reflexivity. Qed.
Lemma isPortQuery_ignoresLogs : ignoresLogs isPortQuery.
Proof. intros lvl msg; reflexivity. Qed.

Lemma succeeded_nonzero n : n <> 0%Z -> succeeded (Some n) = false.
Proof. destruct n; [congruence | reflexivity | reflexivity]. Qed.

(** The children of a run that stops at the build. *)
Lemma spawns_until_up w ctx :
  filter isSpawn (beforeUp w ctx ++ upEvents w ctx)
  = map removalCall (serviceNames w ctx) ++ [upCall w ctx].
Proof.
  rewrite filter_app, (filter_beforeUp _ isSpawn_ignoresLogs),
    (filter_upEvents _ isSpawn_ignoresLogs).
  simpl. now rewrite filter_map_all.
Qed.

(* ------------------------------------------------------------------ *)

(** C1.  When [docker compose up -d --build] closes with an exit code other
    than 0, the handler throws the error whose message ends with that code,
    after logging it as an error; the children it has spawned are the
    removals and the build, so no port query runs, and nothing is given to
    [ctx.output]: no port table is filled and no result is returned. *)
Theorem failed_build_aborts (w : World) (ctx : Ctx) (n : Z) :
  existsSync w (composePathOf w ctx) = true ->
  exitCode (upRun w ctx) = Some n ->
  n <> 0%Z ->
  outcome (PortsAction.handler w ctx)
    = Thrown ("docker compose up exited with code " ++ ofZ n)
  /\ (exists before,
        trace (PortsAction.handler w ctx)
        = before
          ++ [Log error ("docker compose up exited with code " ++ ofZ n)])
  /\ filter isSpawn (trace (PortsAction.handler w ctx))
     = map removalCall (serviceNames w ctx) ++ [upCall w ctx]
  /\ filter isPortQuery (trace (PortsAction.handler w ctx)) = []
  /\ filter isOutput (trace (PortsAction.handler w ctx)) = [].
Proof.
  intros Hex Hcode Hn. rewrite handler_eq, Hex.
  pose proof (succeeded_nonzero n Hn) as Hfail. rewrite <- Hcode in Hfail.
  rewrite Hfail. cbn [trace outcome fst snd].
  split; [now rewrite Hcode|]. split; [|repeat split].
  - exists (beforeUp w ctx ++ upCall w ctx
            :: flat_map upForwarded (chunks (upRun w ctx))).
    unfold upEvents, upFailure. rewrite Hfail, Hcode.
    cbn [showCode]. rewrite <- app_assoc. reflexivity.
  - apply spawns_until_up.
  - rewrite filter_app, (filter_beforeUp _ isPortQuery_ignoresLogs),
      (filter_upEvents _ isPortQuery_ignoresLogs).
    simpl. rewrite app_nil_r. now apply filter_map_none.
  - rewrite filter_app, (filter_beforeUp _ isOutput_ignoresLogs),
      (filter_upEvents _ isOutput_ignoresLogs).
    simpl. rewrite app_nil_r. now apply filter_map_none.
Qed.

Lemma failed_build_aborts_witness :
  existsSync Examples.failingBuild
    (composePathOf Examples.failingBuild Examples.theCtx) = true
  /\ exitCode (upRun Examples.failingBuild Examples.theCtx) = Some 1%Z
  /\ outcome (PortsAction.handler Examples.failingBuild Examples.theCtx)
     = Thrown "docker compose up exited with code 1"
  /\ filter isPortQuery
       (trace (PortsAction.handler Examples.failingBuild Examples.theCtx)) = [].
Proof.
  split; [reflexivity|]. split; [reflexivity|].
  pose proof (failed_build_aborts Examples.failingBuild Examples.theCtx 1%Z
                eq_refl eq_refl ltac:(discriminate)) as (H1 & _ & _ & H3 & _).
  split; [exact H1 | exact H3].
Defined.

(* ------------------------------------------------------------------ *)

(** C4.  When no file exists at the resolved manifest path, the handler
    throws [Compose file not found: <path>], and all it has done before is
    logging: the manifest is not read, and no child is spawned, neither a
    removal nor the build.  Both versions of the action behave so. *)
Theorem missing_manifest_aborts (w : World) (ctx : Ctx) :
  existsSync w (composePathOf w ctx) = false ->
  PortsAction.handler w ctx
    = ([Log info ("Compose file: " ++ composePathOf w ctx)],
       Thrown ("Compose file not found: " ++ composePathOf w ctx))
  /\ BuildAction.handler w ctx
     = ([Log info ("composeFile from user: " ++ composeFile (input ctx));
         Log info ("Workspace path: " ++ cwdOf ctx);
         Log info ("Resolved composePath: " ++ composePathOf w ctx);
         Log error ("Compose file NOT FOUND at: " ++ composePathOf w ctx)],
        Thrown ("Compose file not found: " ++ composePathOf w ctx))
  /\ filter (fun e => isLoad e || isSpawn e)
       (trace (PortsAction.handler w ctx) ++ trace (BuildAction.handler w ctx))
     = [].
Proof.
  intros Hex.
  assert (H1 : PortsAction.handler w ctx
               = ([Log info ("Compose file: " ++ composePathOf w ctx)],
                  Thrown ("Compose file not found: " ++ composePathOf w ctx)))
    by now rewrite handler_eq, Hex.
  assert (H2 : BuildAction.handler w ctx
     = ([Log info ("composeFile from user: " ++ composeFile (input ctx));
         Log info ("Workspace path: " ++ cwdOf ctx);
         Log info ("Resolved composePath: " ++ composePathOf w ctx);
         Log error ("Compose file NOT FOUND at: " ++ composePathOf w ctx)],
        Thrown ("Compose file not found: " ++ composePathOf w ctx))).
  { unfold BuildAction.handler. fold (cwdOf ctx). fold (composePathOf w ctx).
    unfold log. rewrite !bind_emit, Hex. reflexivity. }
  rewrite H1, H2. repeat split.
Qed.

Lemma missing_manifest_aborts_witness :
  existsSync Examples.missingManifest
    (composePathOf Examples.missingManifest Examples.theCtx) = false
  /\ PortsAction.handler Examples.missingManifest Examples.theCtx
     = ([Log info "Compose file: /workspace/docker-compose.yml"],
        Thrown "Compose file not found: /workspace/docker-compose.yml").
Proof.
  split; [reflexivity|].
  exact (proj1 (missing_manifest_aborts Examples.missingManifest
                  Examples.theCtx eq_refl)).
Defined.

(* ------------------------------------------------------------------ *)

(** C5.  When the manifest exists but reading it throws, or its [services]
    is absent or has no key, nothing is thrown on that account: a failure
    to parse is logged as a warning, the list of services is empty, the
    only child spawned is [docker compose up], and once that has succeeded
    the handler returns the empty table and the empty URL.  The one error
    that can still end the run is the failure of the build itself. *)
Theorem empty_service_set_skips_per_service_work (w : World) (ctx : Ctx) :
  existsSync w (composePathOf w ctx) = true ->
  declared (loadServices w (composePathOf w ctx)) = [] ->
  serviceNames w ctx = []
  /\ (forall err,
        loadServices w (composePathOf w ctx) = ParseThrows err ->
        parseLog w ctx = [Log warn ("Failed to parse compose file: " ++ err)])
  /\ filter isErrorLog (beforeUp w ctx) = []
  /\ beforeUp w ctx
     = Log info ("Compose file: " ++ composePathOf w ctx)
       :: LoadYaml (composePathOf w ctx)
       :: parseLog w ctx ++ [Log info "Starting Docker Compose..."]
  /\ filter isSpawn (trace (PortsAction.handler w ctx)) = [upCall w ctx]
  /\ PortsAction.handler w ctx
     = if succeeded (exitCode (upRun w ctx)) then
         (beforeUp w ctx ++ upEvents w ctx ++
          [Log info "Exposed ports: {}";
           Output "ports" (OutPorts []);
           Log info "Web URL detected: ";
           Output "webUrl" (OutString "")],
          Returned {| PortsAction.webUrl := ""; PortsAction.ports := [] |})
       else
         (beforeUp w ctx ++ upEvents w ctx,
          Thrown (upFailure (exitCode (upRun w ctx)))).
Proof.
  intros Hex Hnone.
  assert (Hnames : serviceNames w ctx = [])
    by (unfold serviceNames; now rewrite Hnone).
  assert (Hbefore : beforeUp w ctx
     = Log info ("Compose file: " ++ composePathOf w ctx)
       :: LoadYaml (composePathOf w ctx)
       :: parseLog w ctx ++ [Log info "Starting Docker Compose..."])
    by (unfold beforeUp; now rewrite Hnames).
  assert (Hrun : PortsAction.handler w ctx
     = if succeeded (exitCode (upRun w ctx)) then
         (beforeUp w ctx ++ upEvents w ctx ++
          [Log info "Exposed ports: {}";
           Output "ports" (OutPorts []);
           Log info "Web URL detected: ";
           Output "webUrl" (OutString "")],
          Returned {| PortsAction.webUrl := ""; PortsAction.ports := [] |})
       else
         (beforeUp w ctx ++ upEvents w ctx,
          Thrown (upFailure (exitCode (upRun w ctx))))).
  { rewrite handler_eq, Hex.
    unfold afterUp, selectedUrl, portTable. rewrite Hnames. reflexivity. }
  split; [exact Hnames|]. split.
  { intros err Herr. unfold parseLog. now rewrite Herr. }
  split.
  { rewrite Hbefore. unfold parseLog.
    destruct (loadServices w (composePathOf w ctx)); reflexivity. }
  split; [exact Hbefore|]. split; [|exact Hrun].
  rewrite Hrun.
  destruct (succeeded (exitCode (upRun w ctx))); cbn [trace fst].
  - rewrite app_assoc, filter_app, spawns_until_up, Hnames. reflexivity.
  - rewrite spawns_until_up, Hnames. reflexivity.
Qed.

Lemma empty_service_set_witness :
  existsSync Examples.malformedManifest
    (composePathOf Examples.malformedManifest Examples.theCtx) = true
  /\ declared (loadServices Examples.malformedManifest
                 (composePathOf Examples.malformedManifest Examples.theCtx))
     = []
  /\ filter isSpawn
       (trace (PortsAction.handler Examples.malformedManifest Examples.theCtx))
     = [upCall Examples.malformedManifest Examples.theCtx].
Proof.
  split; [reflexivity|]. split; [reflexivity|].
  pose proof (empty_service_set_skips_per_service_work
                Examples.malformedManifest Examples.theCtx eq_refl eq_refl)
    as (_ & _ & _ & _ & H & _).
  exact H.
Defined.

(* ------------------------------------------------------------------ *)

Lemma removals_of_run w ctx :
  existsSync w (composePathOf w ctx) = true ->
  filter isRemoval (trace (PortsAction.handler w ctx))
  = map removalCall (serviceNames w ctx).
Proof.
  intros Hex. rewrite handler_eq, Hex.
  assert (Hpre : filter isRemoval (beforeUp w ctx ++ upEvents w ctx)
                 = map removalCall (serviceNames w ctx)).
  { rewrite filter_app, (filter_beforeUp _ isRemoval_ignoresLogs),
      (filter_upEvents _ isRemoval_ignoresLogs).
    simpl. rewrite app_nil_r. now apply filter_map_all. }
  destruct (succeeded (exitCode (upRun w ctx))); cbn [trace fst];
    [|exact Hpre].
  rewrite app_assoc, filter_app, Hpre,
    (filter_afterUp _ isRemoval_ignoresLogs), filter_app.
  rewrite (filter_map_none isRemoval portCall) by reflexivity.
  simpl. now rewrite app_nil_r.
Qed.

(** C6, as the specification states it, fails: with a service named [1]
    declared after [web], the removal for [1] is issued first. *)
Lemma removals_not_in_declaration_order :
  declared (loadServices Examples.numericName
              (composePathOf Examples.numericName Examples.theCtx))
  = ["web"; "1"]
  /\ filter isRemoval
       (trace (PortsAction.handler Examples.numericName Examples.theCtx))
     = [removalCall "1"; removalCall "web"]
  /\ [removalCall "1"; removalCall "web"] <> map removalCall ["web"; "1"].
Proof.
  split; [reflexivity|]. split; [|discriminate].
  now rewrite removals_of_run.
Qed.

(** C6, amended.  For a manifest that declares N services the handler
    issues exactly N removals, one per declared service, whether or not a
    matching container exists, in the order [Object.keys] gives the names:
    the names that are array indices first, in ascending numeric order, then
    the others in the order of declaration; this is the order of declaration
    when no name is an array index.  The removals run one after the other:
    each is spawned, its output is forwarded, and its closing is logged
    before the next is spawned, and the build starts after the last. *)
Theorem removals_follow_object_keys (w : World) (ctx : Ctx) :
  existsSync w (composePathOf w ctx) = true ->
  filter isRemoval (trace (PortsAction.handler w ctx))
    = map removalCall (serviceNames w ctx)
  /\ length (serviceNames w ctx)
     = length (declared (loadServices w (composePathOf w ctx)))
  /\ Permutation (serviceNames w ctx)
       (declared (loadServices w (composePathOf w ctx)))
  /\ (exists idx : list (N * string),
        serviceNames w ctx
        = map snd idx
          ++ filter (fun k => negb (JsObject.isArrayIndex k))
               (declared (loadServices w (composePathOf w ctx)))
        /\ StronglySorted JsObject.byIndex idx
        /\ Forall (fun p => JsObject.arrayIndex (snd p) = Some (fst p)) idx)
  /\ (Forall (fun k => JsObject.isArrayIndex k = false)
        (declared (loadServices w (composePathOf w ctx))) ->
      serviceNames w ctx = declared (loadServices w (composePathOf w ctx)))
  /\ exists rest,
       trace (PortsAction.handler w ctx)
       = Log info ("Compose file: " ++ composePathOf w ctx)
         :: LoadYaml (composePathOf w ctx)
         :: parseLog w ctx
         ++ flat_map (removalBlock w) (serviceNames w ctx)
         ++ Log info "Starting Docker Compose..." :: rest.
Proof.
  intros Hex.
  assert (Hperm : Permutation (serviceNames w ctx)
                    (declared (loadServices w (composePathOf w ctx))))
    by apply ownOrder_perm.
  split; [now apply removals_of_run|].
  split; [now apply Permutation_length|].
  split; [exact Hperm|].
  split.
  { destruct (ownOrder_shape (fun k => k)
                (declared (loadServices w (composePathOf w ctx))))
      as (idx & E & Hs & Ht & _).
    exists idx. auto. }
  split; [apply (ownOrder_named (fun k => k))|].
  rewrite handler_eq, Hex.
  destruct (succeeded (exitCode (upRun w ctx))); cbn [trace fst].
  - exists (upEvents w ctx ++ afterUp w ctx). unfold beforeUp. simpl.
    now rewrite <- !app_assoc.
  - exists (upEvents w ctx). unfold beforeUp. simpl.
    now rewrite <- !app_assoc.
Qed.

Lemma removals_follow_object_keys_witness :
  existsSync Examples.webAndDb
    (composePathOf Examples.webAndDb Examples.theCtx) = true
  /\ filter isRemoval
       (trace (PortsAction.handler Examples.webAndDb Examples.theCtx))
     = [removalCall "web"; removalCall "db"].
Proof.
  split; [reflexivity|].
  exact (proj1 (removals_follow_object_keys Examples.webAndDb Examples.theCtx
                  eq_refl)).
Defined.

(* ------------------------------------------------------------------ *)

Section ExitCodes.
Variables (code : list string -> option Z) (w : World) (ctx : Ctx).

(** The removals answer with the same chunks, and the other children are
    untouched. *)
Lemma removalRun_withRemovalExit s :
  chunks (removalRun (withRemovalExit code w) s) = chunks (removalRun w s).
Proof. reflexivity. Qed.

Lemma portRun_withRemovalExit s :
  portRun (withRemovalExit code w) s = portRun w s.
Proof. reflexivity. Qed.

Lemma upRun_withRemovalExit :
  upRun (withRemovalExit code w) ctx = upRun w ctx.
Proof. reflexivity. Qed.

Lemma handler_withRemovalExit :
  PortsAction.handler (withRemovalExit code w) ctx = PortsAction.handler w ctx.
Proof. rewrite !handler_eq. reflexivity. Qed.
End ExitCodes.

(** C7.  The removal of a service never throws, whatever its child does:
    the handler spawns the shell, forwards each chunk of output to the
    logger (standard output as information, the error channel as a
    warning), logs the closing, and goes on.  The exit code is not read:
    the whole run, its trace and its outcome, is the same in a world that
    differs in nothing but the exit codes of the removals. *)
Theorem removal_exit_status_ignored (w : World) (ctx : Ctx)
    (code : list string -> option Z) :
  (forall service,
      PortsAction.removeContainers w service
      = (removalCall service
         :: map forwarded (chunks (removalRun w service))
         ++ [Log info ("Removed any existing containers matching: "
                       ++ service)],
         Returned tt))
  /\ (forall names,
        outcome (forEach names (PortsAction.removeContainers w))
        = Returned tt)
  /\ (forall service,
        exitCode (removalRun (withRemovalExit code w) service)
        = code ["-c"; PortsAction.rmCommand service])
  /\ PortsAction.handler (withRemovalExit code w) ctx
     = PortsAction.handler w ctx.
Proof.
  split; [apply removeContainers_eq|].
  split; [intros names; now rewrite reclaim_eq|].
  split; [reflexivity|].
  apply handler_withRemovalExit.
Qed.

(* ------------------------------------------------------------------ *)

Lemma returned_run w ctx r :
  outcome (PortsAction.handler w ctx) = Returned r ->
  existsSync w (composePathOf w ctx) = true
  /\ succeeded (exitCode (upRun w ctx)) = true
  /\ r = {| PortsAction.webUrl := selectedUrl w ctx;
            PortsAction.ports := portTable w ctx |}.
Proof.
  rewrite handler_eq.
  destruct (existsSync w (composePathOf w ctx)); [|discriminate].
  destruct (succeeded (exitCode (upRun w ctx))); [|discriminate].
  cbn [outcome snd]. intros H. injection H as <-. auto.
Qed.

(** C2, as the specification states it, fails: [web] is declared first and
    publishes host port 8080, yet the URL is made of the port of the
    service named [1], declared after it. *)
Lemma webUrl_not_in_declaration_order :
  exists r,
    outcome (PortsAction.handler Examples.numericName Examples.theCtx)
    = Returned r
    /\ declared (loadServices Examples.numericName
                   (composePathOf Examples.numericName Examples.theCtx))
       = ["web"; "1"]
    /\ discovered Examples.numericName "web"
       = [ {| hostPort := "8080"; containerPort := "80" |} ]
    /\ PortsAction.webUrl r = "http://localhost:9090"
    /\ ~ SelectsFirst
         (map (fun s => (s, discovered Examples.numericName s)) ["web"; "1"])
         (PortsAction.webUrl r).
Proof.
  eexists. split; [reflexivity|]. repeat split.
  intros [H _].
  specialize (H [] "web" {| hostPort := "8080"; containerPort := "80" |} []
                [("1", discovered Examples.numericName "1")]
                eq_refl (Forall_nil _)).
  discriminate H.
Qed.

(** C2, amended.  Whenever the handler returns, its URL is made of the
    first mapping of the first entry of the port table that has a mapping,
    and is the empty string when no entry has one; later entries are not
    looked at.  The entries are taken in the order [Object.entries] gives
    them, which for a manifest without repeated keys is the order
    [Object.keys] gave the service names: the names that are array indices
    first, in ascending numeric order, then the others in the order of
    declaration; this is the order of declaration when no name is an array
    index.  The table has one entry for each service but one named
    [__proto__]. *)
Theorem webUrl_is_first_published_entry (w : World) (ctx : Ctx)
    (r : PortsAction.Result) :
  outcome (PortsAction.handler w ctx) = Returned r ->
  NoDup (declared (loadServices w (composePathOf w ctx))) ->
  SelectsFirst (JsObject.entries (PortsAction.ports r)) (PortsAction.webUrl r)
  /\ JsObject.entries (PortsAction.ports r)
     = map (fun s => (s, discovered w s))
         (filter notProto
            (JsObject.ownKeys
               (declared (loadServices w (composePathOf w ctx)))))
  /\ (Forall (fun k => JsObject.isArrayIndex k = false)
        (declared (loadServices w (composePathOf w ctx))) ->
      JsObject.ownKeys (declared (loadServices w (composePathOf w ctx)))
      = declared (loadServices w (composePathOf w ctx))).
Proof.
  intros Hret Hnd. destruct (returned_run _ _ _ Hret) as (_ & _ & ->).
  cbn [PortsAction.ports PortsAction.webUrl].
  split; [apply pickWebUrl_selects|].
  split; [now apply portTable_entries|].
  apply (ownOrder_named (fun k => k)).
Qed.

Lemma webUrl_is_first_published_entry_witness :
  outcome (PortsAction.handler Examples.webAndDb Examples.theCtx)
  = Returned
      {| PortsAction.webUrl := "http://localhost:32768";
         PortsAction.ports :=
           [("web", [ {| hostPort := "32768"; containerPort := "80" |} ]);
            ("db", [])] |}
  /\ NoDup ["web"; "db"]
  /\ SelectsFirst
       [("web", [ {| hostPort := "32768"; containerPort := "80" |} ]);
        ("db", [])]
       "http://localhost:32768".
Proof.
  assert (Hnd : NoDup ["web"; "db"]).
  { repeat constructor; simpl; intuition discriminate. }
  split; [reflexivity|]. split; [exact Hnd|].
  exact (proj1 (webUrl_is_first_published_entry Examples.webAndDb
                  Examples.theCtx _ eq_refl Hnd)).
Defined.

(* ------------------------------------------------------------------ *)

(** What a line yields is determined by the line. *)
Lemma lineYields_parseLine line ms :
  lineYields line ms -> ms = PortsAction.parseLine [] line.
Proof.
  intros [(c & h & Hm & ->) | [Hno ->]].
  - symmetry. now apply parseLine_accepts.
  - symmetry. now apply parseLine_rejects.
Qed.

Lemma lineYields_all lines perLine :
  Forall2 lineYields lines perLine ->
  perLine = map (PortsAction.parseLine []) lines.
Proof.
  induction 1 as [|line ms lines perLine H _ IH]; simpl; [reflexivity|].
  now rewrite (lineYields_parseLine _ _ H), IH.
Qed.

Lemma parseLine_yields_all lines :
  Forall2 lineYields lines (map (PortsAction.parseLine []) lines).
Proof.
  induction lines as [|line lines IH]; simpl; constructor;
    [apply parseLine_yields | exact IH].
Qed.

(** C3.  The regular expression of the handler matches a line exactly when
    the line is of the grammar [<digits>/tcp -> <no colon>:<digits>], and its
    two groups are then the two digit groups.  A listing made of lines
    joined by line feeds is split into those very lines, and its mappings
    are those of its lines, in the order of the lines: a line of the grammar
    contributes the one mapping made of its two digit groups, and any other
    line, blank, UDP or malformed, contributes none.  Parsing is a total
    function: no line makes it fail, and what holds of joined lines holds of
    the pieces of any output. *)
Theorem port_listing_parsed_line_by_line (lines : list string) :
  Forall (fun line => noLF line = true) lines ->
  (forall line groups,
      Regex.matchAll Regex.portLine line = Some groups <->
      exists cPort hPort,
        groups = [cPort; hPort] /\ MatchesPortLine line cPort hPort)
  /\ (lines <> [] ->
      split LF (join (String LF EmptyString) lines) = lines)
  /\ (exists perLine : list (list PortMapping),
        Forall2 lineYields lines perLine
        /\ PortsAction.parsePorts (join (String LF EmptyString) lines)
           = concat perLine)
  /\ (forall output, exists perLine : list (list PortMapping),
        Forall2 lineYields (split LF output) perLine
        /\ PortsAction.parsePorts output = concat perLine).
Proof.
  intros Hlines.
  split; [apply portLine_match|].
  split; [intros Hne; now apply split_join|].
  split.
  - exists (map (PortsAction.parseLine []) lines).
    split; [apply parseLine_yields_all|].
    destruct lines as [|line lines']; [reflexivity|].
    rewrite parsePorts_lines, split_join; [reflexivity | discriminate | exact Hlines].
  - intros output.
    exists (map (PortsAction.parseLine []) (split LF output)).
    split; [apply parseLine_yields_all | apply parsePorts_lines].
Qed.

Lemma port_listing_parsed_line_by_line_witness :
  Forall (fun line => noLF line = true) Examples.portLines
  /\ split LF (join (String LF EmptyString) Examples.portLines)
     = Examples.portLines
  /\ Forall2 lineYields Examples.portLines
       [ [ {| hostPort := "32768"; containerPort := "80" |} ];
         []; []; [];
         [ {| hostPort := "8443"; containerPort := "443" |} ] ]
  /\ PortsAction.parsePorts (join (String LF EmptyString) Examples.portLines)
     = [ {| hostPort := "32768"; containerPort := "80" |};
         {| hostPort := "8443"; containerPort := "443" |} ].
Proof.
  assert (Hlines : Forall (fun line => noLF line = true) Examples.portLines)
    by (repeat constructor).
  destruct (port_listing_parsed_line_by_line Examples.portLines Hlines)
    as (_ & Hsplit & (perLine & Hper & Hparse) & _).
  split; [exact Hlines|].
  split; [apply Hsplit; discriminate|].
  pose proof (lineYields_all _ _ Hper) as E. cbv in E. subst perLine.
  split; [exact Hper | exact Hparse].
Defined.

(** The three markers of routine output on the error channel. *)
Lemma routine_marker str :
  includes "Creating" str || includes "Created" str
  || includes "level=warning" str = true
  <-> exists marker before after,
        In marker ["Creating"; "Created"; "level=warning"]
        /\ str = (before ++ marker ++ after)%string.
Proof.
  rewrite !orb_true_iff, !includes_spec. split.
  - intros [[(a & b & H) | (a & b & H)] | (a & b & H)].
    + exists "Creating", a, b. simpl. auto.
    + exists "Created", a, b. simpl. auto.
    + exists "level=warning", a, b. simpl. auto.
  - intros (m & a & b & [<-|[<-|[<-|[]]]] & H); eauto.
Qed.

(** The second version of the action classifies as the specification
    says: a chunk of the error channel with a marker is a warning, any
    other is an error, and standard output is information. *)
Lemma build_action_classifies (w : World) (composePath cwd : string) :
  (forall str,
      BuildAction.upStderr str
      = if includes "Creating" str || includes "Created" str
           || includes "level=warning" str
        then ([Log warn ("DOCKER WARN: " ++ str)], Returned tt)
        else ([Log error ("DOCKER ERR: " ++ str)], Returned tt))
  /\ exists closing,
       trace (BuildAction.composeUp w composePath cwd)
       = Spawn "/usr/bin/docker"
           ["compose"; "-f"; composePath; "up"; "-d"; "--build"] (Some cwd)
         :: flat_map
              (fun c => match fst c with
                        | stdout => [Log info ("DOCKER OUT: " ++ snd c)]
                        | stderr => trace (BuildAction.upStderr (snd c))
                        end)
              (chunks (run w "/usr/bin/docker"
                         ["compose"; "-f"; composePath; "up"; "-d"; "--build"]
                         (Some cwd)))
         ++ closing.
Proof.
  split.
  - intros str. unfold BuildAction.upStderr.
    now destruct (includes "Creating" str || includes "Created" str
                  || includes "level=warning" str).
  - unfold BuildAction.composeUp. rewrite bind_emit.
    rewrite (bind_returned _ _
               (flat_map
                  (fun c => match fst c with
                            | stdout => [Log info ("DOCKER OUT: " ++ snd c)]
                            | stderr => trace (BuildAction.upStderr (snd c))
                            end)
                  (chunks (run w "/usr/bin/docker"
                             ["compose"; "-f"; composePath; "up"; "-d"; "--build"]
                             (Some cwd)))) tt).
    + cbn [trace fst]. eexists. reflexivity.
    + apply forEach_all. intros [[] d]; [reflexivity|].
      cbn [fst snd]. unfold BuildAction.upStderr.
      now destruct (includes "Creating" d || includes "Created" d
                    || includes "level=warning" d).
Qed.

(** C8 fails on the first version of the action.  A chunk of the error
    channel that carries none of the three markers is logged there with
    [ctx.logger.warn], under the label [DOCKER ERR], and so is every chunk
    of that channel: the listener never logs an error. *)
Theorem ports_action_logs_errors_as_warnings :
  includes "Creating" "pull access denied" = false
  /\ includes "Created" "pull access denied" = false
  /\ includes "level=warning" "pull access denied" = false
  /\ PortsAction.upStderr "pull access denied"
     = ([Log warn "DOCKER ERR: pull access denied"], Returned tt)
  /\ BuildAction.upStderr "pull access denied"
     = ([Log error "DOCKER ERR: pull access denied"], Returned tt)
  /\ trace (PortsAction.handler Examples.failingBuild Examples.theCtx)
     = [Log info "Compose file: /workspace/docker-compose.yml";
        LoadYaml "/workspace/docker-compose.yml";
        Log info "Detected services: web";
        removalCall "web";
        Log info "Removed any existing containers matching: web";
        Log info "Starting Docker Compose...";
        upCall Examples.failingBuild Examples.theCtx;
        Log warn "DOCKER ERR: pull access denied";
        Log error "docker compose up exited with code 1"]
  /\ forall str, exists msg,
       PortsAction.upStderr str = ([Log warn msg], Returned tt).
Proof.
  repeat split.
  intros str. unfold PortsAction.upStderr.
  destruct (includes "Creating" str || includes "Created" str
            || includes "level=warning" str); eexists; reflexivity.
Qed.

(* ------------------------------------------------------------------ *)

(** The keys of the port table are service names, whatever the manifest. *)
Lemma portTable_keys_declared (w : World) (ctx : Ctx) (k : string) :
  In k (map fst (portTable w ctx)) ->
  In k (declared (loadServices w (composePathOf w ctx))).
Proof.
  unfold portTable. rewrite assign_put. intros H.
  destruct (puts_keys _ _ _ _ H) as [[]|H'].
  eapply Permutation_in; [apply ownOrder_perm | exact H'].
Qed.

(** Without a service named [__proto__], every service has its entry. *)
Lemma portTable_keys_complete (w : World) (ctx : Ctx) :
  NoDup (declared (loadServices w (composePathOf w ctx))) ->
  ~ In "__proto__" (declared (loadServices w (composePathOf w ctx))) ->
  map fst (portTable w ctx) = serviceNames w ctx.
Proof.
  intros Hnd Hproto. rewrite (portTable_eq _ _ Hnd), map_map. simpl.
  rewrite map_id. apply filter_all. intros s Hs.
  unfold notProto. apply negb_true_iff, String.eqb_neq. intros ->.
  apply Hproto. eapply Permutation_in; [apply ownOrder_perm | exact Hs].
Qed.

(** C9 fails on a manifest with a service named [__proto__]: the service
    is extracted, its containers are removed and its ports are queried, but
    the assignment [ports[service] = mappings] creates no property, and the
    table that is returned has no entry for it. *)
Theorem proto_service_has_no_entry :
  serviceNames Examples.protoName Examples.theCtx = ["__proto__"]
  /\ discovered Examples.protoName "__proto__"
     = [ {| hostPort := "8080"; containerPort := "80" |} ]
  /\ filter isSpawn
       (trace (PortsAction.handler Examples.protoName Examples.theCtx))
     = [removalCall "__proto__";
        upCall Examples.protoName Examples.theCtx;
        portCall "__proto__"]
  /\ outcome (PortsAction.handler Examples.protoName Examples.theCtx)
     = Returned {| PortsAction.webUrl := ""; PortsAction.ports := [] |}.
Proof. repeat split. Qed.

(* ------------------------------------------------------------------ *)

(** C10.  Whenever the handler returns, both ports of every mapping stored
    in the table are non-empty strings of decimal digits; a URL that is not
    empty is [http://localhost:] followed by the host port of a mapping that
    is in the table; and the handler has given [ctx.output] the table under
    [ports] and the URL under [webUrl], the very values it returns, and
    nothing else. *)
Theorem result_is_well_formed (w : World) (ctx : Ctx)
    (r : PortsAction.Result) :
  outcome (PortsAction.handler w ctx) = Returned r ->
  (forall service ms m,
      In (service, ms) (PortsAction.ports r) -> In m ms ->
      isDigits (containerPort m) = true /\ isDigits (hostPort m) = true)
  /\ (PortsAction.webUrl r <> EmptyString ->
      exists service ms m,
        In (service, ms) (PortsAction.ports r) /\ In m ms /\
        PortsAction.webUrl r = ("http://localhost:" ++ hostPort m)%string)
  /\ filter isOutput (trace (PortsAction.handler w ctx))
     = [Output "ports" (OutPorts (PortsAction.ports r));
        Output "webUrl" (OutString (PortsAction.webUrl r))].
Proof.
  intros Hret. destruct (returned_run _ _ _ Hret) as (Hex & Hup & ->).
  cbn [PortsAction.ports PortsAction.webUrl].
  split; [|split].
  - intros service ms m Hin Hm.
    unfold portTable in Hin. rewrite assign_put in Hin.
    destruct (puts_values _ _ _ _ _ Hin) as [[]|[_ ->]].
    exact (parsePorts_digits _ _ Hm).
  - intros Hne. destruct (pickWebUrl_origin _ Hne) as (s & ms & m & Hin & Hm & E).
    exists s, ms, m. repeat split; [|exact Hm|exact E].
    eapply Permutation_in; [apply ownOrder_perm|exact Hin].
  - rewrite handler_eq, Hex, Hup. cbn [trace fst].
    rewrite !filter_app, (filter_beforeUp _ isOutput_ignoresLogs),
      (filter_upEvents _ isOutput_ignoresLogs),
      (filter_afterUp _ isOutput_ignoresLogs), filter_app.
    simpl. rewrite !(filter_map_none isOutput) by reflexivity. reflexivity.
Qed.

Lemma result_is_well_formed_witness :
  outcome (PortsAction.handler Examples.webAndDb Examples.theCtx)
  = Returned
      {| PortsAction.webUrl := "http://localhost:32768";
         PortsAction.ports :=
           [("web", [ {| hostPort := "32768"; containerPort := "80" |} ]);
            ("db", [])] |}
  /\ filter isOutput
       (trace (PortsAction.handler Examples.webAndDb Examples.theCtx))
     = [Output "ports"
          (OutPorts
             [("web", [ {| hostPort := "32768"; containerPort := "80" |} ]);
              ("db", [])]);
        Output "webUrl" (OutString "http://localhost:32768")].
Proof.
  split; [reflexivity|].
  pose proof (result_is_well_formed Examples.webAndDb Examples.theCtx _
                eq_refl) as (_ & _ & H).
  exact H.
Defined.

(* ================================================================== *)
(** * Further properties of the two actions *)
(* ================================================================== *)

Import Variations.

Lemma succeeded_iff code : succeeded code = true <-> code = Some 0%Z.
Proof.
  destruct code as [[|p|p]|]; simpl; split; congruence.
Qed.

(** ** The outcome of a run *)



(** ** The order of the children *)

(** X2.  In a run that returns, the children are spawned in three stages: the
    removals of all services, then the build, then the port queries of all
    services, removals and queries in the same order of services. *)
Theorem children_in_three_stages (w : World) (ctx : Ctx)
    (r : PortsAction.Result) :
  outcome (PortsAction.handler w ctx) = Returned r ->
  filter isSpawn (trace (PortsAction.handler w ctx))
  = map removalCall (serviceNames w ctx)
    ++ upCall w ctx :: map portCall (serviceNames w ctx).
Proof.
  intros Hret. destruct (returned_run _ _ _ Hret) as (Hex & Hup & _).
  rewrite handler_eq, Hex, Hup. cbn [trace fst].
  rewrite app_assoc, filter_app, spawns_until_up,
    (filter_afterUp _ isSpawn_ignoresLogs), filter_app.
  rewrite (filter_map_all isSpawn portCall) by reflexivity.
  simpl. now rewrite app_nil_r, <- app_assoc.
Qed.

Lemma children_in_three_stages_witness :
  outcome (PortsAction.handler Examples.webAndDb Examples.theCtx)
  = Returned
      {| PortsAction.webUrl := "http://localhost:32768";
         PortsAction.ports :=
           [("web", [ {| hostPort := "32768"; containerPort := "80" |} ]);
            ("db", [])] |}
  /\ filter isSpawn
       (trace (PortsAction.handler Examples.webAndDb Examples.theCtx))
     = [removalCall "web"; removalCall "db";
        upCall Examples.webAndDb Examples.theCtx;
        portCall "web"; portCall "db"].
Proof.
  split; [reflexivity|].
  exact (children_in_three_stages Examples.webAndDb Examples.theCtx _ eq_refl).
Defined.

(** ** The port queries *)

(** X3.  The exit code of a port query is not read: a run is the same, trace and
    outcome, in a world that differs in nothing but the exit codes of the
    port queries.  A query that fails leaves its service with the mappings
    found in what it printed, and is no error. *)
Theorem port_query_exit_status_ignored (w : World) (ctx : Ctx)
    (code : list string -> option Z) :
  (forall service,
      exitCode (portRun (withPortQueryExit code w) service)
      = code ["-c"; PortsAction.portCommand service])
  /\ (forall table service,
        outcome (PortsAction.inspectService w table service)
        = Returned (JsObject.set table service (discovered w service)))
  /\ PortsAction.handler (withPortQueryExit code w) ctx
     = PortsAction.handler w ctx.
Proof.
  split; [reflexivity|]. split.
  - intros table service. now rewrite inspectService_eq.
  - rewrite !handler_eq. reflexivity.
Qed.

Lemma stdoutOf_app cs1 cs2 :
  stdoutOf (cs1 ++ cs2) = (stdoutOf cs1 ++ stdoutOf cs2)%string.
Proof.
  induction cs1 as [|[[] d] cs1 IH]; simpl; [reflexivity| |exact IH].
  now rewrite IH, append_assoc.
Qed.

(** X4.  What a port query stores for its service depends on the text of the
    standard output only: not on how the text is cut into chunks, and not
    on the chunks of the error channel that arrive in between, which are
    logged as warnings and never parsed. *)
Theorem mappings_independent_of_chunking (w w' : World)
    (table : PortTable) (service : string) :
  stdoutOf (chunks (portRun w service))
  = stdoutOf (chunks (portRun w' service)) ->
  outcome (PortsAction.inspectService w table service)
  = outcome (PortsAction.inspectService w' table service)
  /\ trace (PortsAction.inspectService w table service)
     = portCall service :: stderrWarnings (chunks (portRun w service)).
Proof.
  intros H. rewrite !inspectService_eq. cbn [outcome trace fst snd].
  split; [|reflexivity]. unfold assign, discovered. now rewrite H.
Qed.

Lemma mappings_independent_of_chunking_witness :
  stdoutOf (chunks (portRun inOnePiece "web"))
  = stdoutOf (chunks (portRun inTwoPieces "web"))
  /\ outcome (PortsAction.inspectService inTwoPieces JsObject.empty "web")
     = Returned [("web", [ {| hostPort := "32768"; containerPort := "80" |} ])]
  /\ outcome (PortsAction.inspectService inOnePiece JsObject.empty "web")
     = outcome (PortsAction.inspectService inTwoPieces JsObject.empty "web").
Proof.
  split; [reflexivity|]. split; [reflexivity|].
  exact (proj1 (mappings_independent_of_chunking inOnePiece inTwoPieces
                  JsObject.empty "web" eq_refl)).
Defined.

(** ** The parser of the port listing *)

Lemma split_never_empty sep s : split sep s <> [].
Proof.
  destruct s as [|c s]; simpl; [discriminate|].
  destruct (Ascii.eqb c sep); [discriminate|].
  destruct (split sep s); discriminate.
Qed.

(** Splitting distributes over a separator. *)
Lemma split_at_separator sep (a b : string) :
  split sep (a ++ String sep b) = split sep a ++ split sep b.
Proof.
  induction a as [|c a IH]; simpl.
  - now rewrite Ascii.eqb_refl.
  - destruct (Ascii.eqb c sep); [now rewrite IH|].
    rewrite IH. pose proof (split_never_empty sep a) as Hne.
    destruct (split sep a); [contradiction | reflexivity].
Qed.

(** X5.  Listings compose: the mappings of two listings put one after the
    other, with a line feed in between, are the mappings of the first
    followed by those of the second.  So a line feed at the end changes
    nothing, and neither does an empty line anywhere. *)
Theorem parsePorts_composes (a b : string) :
  PortsAction.parsePorts (a ++ String LF b)
  = PortsAction.parsePorts a ++ PortsAction.parsePorts b
  /\ PortsAction.parsePorts (a ++ String LF EmptyString)
     = PortsAction.parsePorts a
  /\ PortsAction.parsePorts (a ++ String LF (String LF b))
     = PortsAction.parsePorts (a ++ String LF b).
Proof.
  assert (H : forall x y,
             PortsAction.parsePorts (x ++ String LF y)
             = PortsAction.parsePorts x ++ PortsAction.parsePorts y).
  { intros x y. rewrite !parsePorts_lines, split_at_separator, map_app.
    apply concat_app. }
  split; [apply H|]. split.
  - rewrite H. change (PortsAction.parsePorts "") with (@nil PortMapping).
    apply app_nil_r.
  - rewrite !H.
    change (String LF b) with ("" ++ String LF b)%string. rewrite H.
    reflexivity.
Qed.

Lemma colons_append (a b : string) :
  colons (a ++ b) = colons a + colons b.
Proof.
  induction a as [|c a IH]; simpl; [reflexivity|]. rewrite IH. lia.
Qed.

Lemma colons_none p (s : string) :
  (forall c, p c = true -> Ascii.eqb c ":"%char = false) ->
  allChars p s = true -> colons s = 0.
Proof.
  intros Hp. induction s as [|c s IH]; simpl; [reflexivity|].
  intros H. apply andb_true_iff in H. destruct H as [Hc Hs].
  now rewrite (Hp c Hc), (IH Hs).
Qed.

Lemma isDigit_not_colon c : isDigit c = true -> Ascii.eqb c ":"%char = false.
Proof.
  intros H. apply Ascii.eqb_neq. intros ->. discriminate H.
Qed.

Lemma notColon_not_colon c :
  Regex.notColon c = true -> Ascii.eqb c ":"%char = false.
Proof. unfold Regex.notColon. now intros H%negb_true_iff. Qed.

Lemma truthy_append_r (a b : string) :
  truthy b = true -> truthy (a ++ b) = true.
Proof. destruct a; [auto | reflexivity]. Qed.

Lemma lastChar_append (a b : string) :
  truthy b = true -> lastChar (a ++ b) = lastChar b.
Proof.
  intros Hb. induction a as [|x a IH]; [reflexivity|].
  cbn [String.append lastChar].
  pose proof (truthy_append_r a b Hb) as Hab.
  destruct (a ++ b)%string; [discriminate | exact IH].
Qed.

Lemma lastChar_digits (s : string) :
  truthy s = true -> allChars isDigit s = true ->
  exists d, lastChar s = Some d /\ isDigit d = true.
Proof.
  induction s as [|c s IH]; [discriminate|]. intros _ H. simpl in H.
  apply andb_true_iff in H. destruct H as [Hc Hs].
  destruct s as [|c' s]; [exists c; auto|].
  destruct (IH eq_refl Hs) as (d & Hd & Hdig). exists d. auto.
Qed.

Lemma matching_line_shape line c h :
  MatchesPortLine line c h ->
  colons line = 1
  /\ (exists d, firstChar line = Some d /\ isDigit d = true)
  /\ (exists d, lastChar line = Some d /\ isDigit d = true).
Proof.
  intros (host & -> & Hc & _ & Hhost & Hh).
  apply isDigits_split in Hc, Hh.
  destruct Hc as [Hc1 Hc2], Hh as [Hh1 Hh2].
  split; [|split].
  - rewrite !colons_append,
      (colons_none _ _ isDigit_not_colon Hc2),
      (colons_none _ _ notColon_not_colon Hhost),
      (colons_none _ _ isDigit_not_colon Hh2).
    reflexivity.
  - destruct c as [|d c]; [discriminate|]. simpl in Hc2.
    apply andb_true_iff in Hc2. exists d. now split.
  - destruct (lastChar_digits h Hh1 Hh2) as (d & Hd & Hdig).
    exists d. split; [|exact Hdig].
    rewrite !lastChar_append; auto using truthy_append_r.
Qed.

(** X6.  A line is accepted only if it has exactly one colon and both starts and
    ends with a decimal digit.  So the binding of an IPv6 address, whose
    address has colons of its own, is dropped, and so is a line that ends
    with a carriage return or starts with a blank. *)
Theorem accepted_line_shape (mappings : list PortMapping) (line : string) :
  PortsAction.parseLine mappings line <> mappings ->
  colons line = 1
  /\ (exists d, firstChar line = Some d /\ isDigit d = true)
  /\ (exists d, lastChar line = Some d /\ isDigit d = true).
Proof.
  intros H. unfold PortsAction.parseLine in H.
  destruct (truthy (trim line)); [|contradiction].
  destruct (Regex.matchAll Regex.portLine line) as [groups|] eqn:E;
    [|contradiction].
  destruct (portLine_sound _ _ E) as (c & h & _ & Hm).
  exact (matching_line_shape _ _ _ Hm).
Qed.

Lemma accepted_line_shape_witness :
  PortsAction.parseLine [] "80/tcp -> 0.0.0.0:32768" <> []
  /\ colons "80/tcp -> 0.0.0.0:32768" = 1
  /\ PortsAction.parseLine [] "80/tcp -> [::]:32768" = [].
Proof.
  assert (H : PortsAction.parseLine [] "80/tcp -> 0.0.0.0:32768" <> [])
    by discriminate.
  split; [exact H|]. split; [|reflexivity].
  exact (proj1 (accepted_line_shape [] "80/tcp -> 0.0.0.0:32768" H)).
Defined.

(** ** The severities of the log *)

Lemma errorLogs_app t1 t2 : errorLogs (t1 ++ t2) = errorLogs t1 ++ errorLogs t2.
Proof. apply filter_app. Qed.

Lemma errorLogs_flat_map {A : Type} (f : A -> list Event) l :
  (forall x, errorLogs (f x) = []) -> errorLogs (flat_map f l) = [].
Proof.
  intros H. induction l as [|x l IH]; simpl; [reflexivity|].
  now rewrite errorLogs_app, H, IH.
Qed.

Lemma errorLogs_removalBlock w s : errorLogs (removalBlock w s) = [].
Proof.
  unfold removalBlock. cbn [errorLogs filter removalCall isErrorLog].
  fold (errorLogs (map forwarded (chunks (removalRun w s)) ++
        [Log info ("Removed any existing containers matching: " ++ s)])).
  rewrite errorLogs_app. simpl. rewrite app_nil_r.
  induction (chunks (removalRun w s)) as [|[[] d] cs IH]; simpl; auto.
Qed.

Lemma errorLogs_beforeUp w ctx : errorLogs (beforeUp w ctx) = [].
Proof.
  unfold beforeUp. cbn [errorLogs filter isErrorLog].
  fold (errorLogs (parseLog w ctx ++
                   flat_map (removalBlock w) (serviceNames w ctx) ++
                   [Log info "Starting Docker Compose..."])).
  rewrite !errorLogs_app, (errorLogs_flat_map _ _ (errorLogs_removalBlock w)).
  unfold parseLog. now destruct (loadServices w (composePathOf w ctx)).
Qed.

Lemma errorLogs_upForwarded c : errorLogs (upForwarded c) = [].
Proof.
  destruct c as [[] d]; [reflexivity|].
  unfold upForwarded, PortsAction.upStderr. cbn [fst snd].
  now destruct (includes "Creating" d || includes "Created" d
                || includes "level=warning" d).
Qed.

Lemma errorLogs_upEvents w ctx :
  errorLogs (upEvents w ctx)
  = if succeeded (exitCode (upRun w ctx)) then []
    else [Log error (upFailure (exitCode (upRun w ctx)))].
Proof.
  unfold upEvents. cbn [errorLogs filter upCall isErrorLog].
  fold (errorLogs (flat_map upForwarded (chunks (upRun w ctx)) ++
        [if succeeded (exitCode (upRun w ctx))
         then Log info "Docker Compose executed successfully."
         else Log error (upFailure (exitCode (upRun w ctx)))])).
  rewrite errorLogs_app, (errorLogs_flat_map _ _ errorLogs_upForwarded).
  now destruct (succeeded (exitCode (upRun w ctx))).
Qed.

Lemma errorLogs_afterUp w ctx : errorLogs (afterUp w ctx) = [].
Proof.
  unfold afterUp. rewrite errorLogs_app. simpl. rewrite app_nil_r.
  apply errorLogs_flat_map. intros s. unfold queryBlock.
  cbn [errorLogs filter portCall isErrorLog].
  induction (chunks (portRun w s)) as [|[[] d] cs IH]; simpl; auto.
Qed.

(** X7.  The first version of the action logs at error severity once at most:
    when the build fails, with the message it then throws.  Nothing a child
    writes, on either channel, is logged as an error; a run that returns,
    and a run that stops for want of a manifest, log no error at all. *)
Theorem ports_action_error_log (w : World) (ctx : Ctx) :
  errorLogs (trace (PortsAction.handler w ctx))
  = if existsSync w (composePathOf w ctx)
       && negb (succeeded (exitCode (upRun w ctx)))
    then [Log error ("docker compose up exited with code "
                     ++ showCode (exitCode (upRun w ctx)))]
    else [].
Proof.
  rewrite handler_eq.
  destruct (existsSync w (composePathOf w ctx)); [|reflexivity].
  destruct (succeeded (exitCode (upRun w ctx))) eqn:Hup; cbn [trace fst].
  - now rewrite !errorLogs_app, errorLogs_beforeUp, errorLogs_upEvents, Hup,
      errorLogs_afterUp.
  - now rewrite errorLogs_app, errorLogs_beforeUp, errorLogs_upEvents, Hup.
Qed.

(** ** The keys of the port table *)

Lemma set_NoDup {V : Type} (o : JsObject.t V) k v :
  NoDup (map fst o) -> NoDup (map fst (JsObject.set o k v)).
Proof.
  intros H. unfold JsObject.set.
  destruct (String.eqb k "__proto__"); [exact H|].
  destruct (JsObject.hasOwn k o) eqn:E.
  - now rewrite update_keys.
  - rewrite map_app. simpl.
    apply NoDup_app; [exact H | repeat constructor; intros [] |].
    intros x Hx [<-|[]]. apply hasOwn_In in Hx. congruence.
Qed.

Lemma set_length {V : Type} (o : JsObject.t V) k v :
  length (JsObject.set o k v) <= S (length o).
Proof.
  unfold JsObject.set. destruct (String.eqb k "__proto__"); [lia|].
  destruct (JsObject.hasOwn k o).
  - assert (E : length (JsObject.update k v o) = length o).
    { rewrite <- (length_map fst), update_keys. apply length_map. }
    lia.
  - rewrite length_app. simpl. lia.
Qed.

Lemma puts_invariant {V : Type} (f : string -> V) names :
  forall o : JsObject.t V,
    NoDup (map fst o) ->
    NoDup (map fst (fold_left (JsObject.put f) names o))
    /\ length (fold_left (JsObject.put f) names o)
       <= length o + length names.
Proof.
  induction names as [|s names IH]; intros o Ho; simpl.
  - split; [exact Ho | lia].
  - destruct (IH (JsObject.put f o s) (set_NoDup o s (f s) Ho)) as [H1 H2].
    split; [exact H1|].
    pose proof (set_length o s (f s)). unfold JsObject.put in H2 |- *. lia.
Qed.

(** X8.  The table that is returned has no two entries with the same key, every
    key is a declared service, there are no more entries than services, and
    the value under a key is what was parsed from the port query of that
    very service. *)
Theorem port_table_keys_are_services (w : World) (ctx : Ctx)
    (r : PortsAction.Result) :
  outcome (PortsAction.handler w ctx) = Returned r ->
  NoDup (map fst (PortsAction.ports r))
  /\ (forall k, In k (map fst (PortsAction.ports r)) ->
                In k (declared (loadServices w (composePathOf w ctx))))
  /\ length (PortsAction.ports r)
     <= length (declared (loadServices w (composePathOf w ctx)))
  /\ (forall k ms, In (k, ms) (PortsAction.ports r) -> ms = discovered w k).
Proof.
  intros Hret. destruct (returned_run _ _ _ Hret) as (_ & _ & ->).
  cbn [PortsAction.ports].
  destruct (puts_invariant (discovered w) (serviceNames w ctx) JsObject.empty
              (NoDup_nil _)) as [Hnd Hlen].
  split; [exact Hnd|]. split.
  - intros k Hk. unfold portTable in Hk. rewrite assign_put in Hk.
    destruct (puts_keys _ _ _ _ Hk) as [[]|Hin].
    eapply Permutation_in; [apply ownOrder_perm | exact Hin].
  - split.
    + unfold serviceNames, JsObject.ownKeys in Hlen.
      rewrite (Permutation_length (ownOrder_perm (fun k => k) _)) in Hlen.
      exact Hlen.
    + intros k ms Hin. unfold portTable in Hin. rewrite assign_put in Hin.
      now destruct (puts_values _ _ _ _ _ Hin) as [[]|[_ ->]].
Qed.

Lemma port_table_keys_are_services_witness :
  outcome (PortsAction.handler Examples.webAndDb Examples.theCtx)
  = Returned
      {| PortsAction.webUrl := "http://localhost:32768";
         PortsAction.ports :=
           [("web", [ {| hostPort := "32768"; containerPort := "80" |} ]);
            ("db", [])] |}
  /\ NoDup ["web"; "db"].
Proof.
  split; [reflexivity|].
  exact (proj1 (port_table_keys_are_services Examples.webAndDb
                  Examples.theCtx _ eq_refl)).
Defined.

(** X9.  When no service is named [__proto__], the table has exactly one entry
    per service, in the order in which the services were removed and
    queried. *)
Theorem port_table_has_every_service (w : World) (ctx : Ctx)
    (r : PortsAction.Result) :
  outcome (PortsAction.handler w ctx) = Returned r ->
  NoDup (declared (loadServices w (composePathOf w ctx))) ->
  ~ In "__proto__" (declared (loadServices w (composePathOf w ctx))) ->
  PortsAction.ports r
  = map (fun s => (s, discovered w s)) (serviceNames w ctx)
  /\ length (PortsAction.ports r)
     = length (declared (loadServices w (composePathOf w ctx))).
Proof.
  intros Hret Hnd Hproto. destruct (returned_run _ _ _ Hret) as (_ & _ & ->).
  cbn [PortsAction.ports].
  assert (Hall : filter notProto (serviceNames w ctx) = serviceNames w ctx).
  { apply filter_all. intros s Hs. unfold notProto.
    apply negb_true_iff, String.eqb_neq. intros ->. apply Hproto.
    eapply Permutation_in; [apply ownOrder_perm | exact Hs]. }
  rewrite (portTable_eq _ _ Hnd), Hall. split; [reflexivity|].
  rewrite length_map. apply Permutation_length, ownOrder_perm.
Qed.

Lemma port_table_has_every_service_witness :
  NoDup ["web"; "db"]
  /\ ~ In "__proto__" ["web"; "db"]
  /\ PortsAction.ports
       {| PortsAction.webUrl := "http://localhost:32768";
          PortsAction.ports :=
            [("web", [ {| hostPort := "32768"; containerPort := "80" |} ]);
             ("db", [])] |}
     = map (fun s => (s, discovered Examples.webAndDb s)) ["web"; "db"].
Proof.
  assert (Hnd : NoDup ["web"; "db"]).
  { repeat constructor; simpl; intuition discriminate. }
  assert (Hp : ~ In "__proto__" ["web"; "db"]).
  { simpl. intuition discriminate. }
  split; [exact Hnd|]. split; [exact Hp|].
  exact (proj1 (port_table_has_every_service Examples.webAndDb Examples.theCtx
                  _ eq_refl Hnd Hp)).
Defined.

(** ** The second version of the action *)

Lemma build_upStderr_eq str :
  BuildAction.upStderr str = (trace (BuildAction.upStderr str), Returned tt).
Proof.
  unfold BuildAction.upStderr.
  now destruct (includes "Creating" str || includes "Created" str
                || includes "level=warning" str).
Qed.

Lemma build_composeUp_eq w ctx :
  BuildAction.composeUp w (composePathOf w ctx) (cwdOf ctx)
  = (buildUpEvents w ctx,
     if succeeded (exitCode (upRun w ctx)) then Returned tt
     else Thrown (upFailure (exitCode (upRun w ctx)))).
Proof.
  unfold BuildAction.composeUp. rewrite bind_emit.
  rewrite (bind_returned _ _
             (flat_map buildUpForwarded (chunks (upRun w ctx))) tt).
  - unfold buildUpEvents, upCall. fold (upRun w ctx).
    destruct (exitCode (upRun w ctx)) as [[|p|p]|]; reflexivity.
  - apply forEach_all. intros [[] d]; [reflexivity | apply build_upStderr_eq].
Qed.

Lemma build_parseServices_eq w ctx :
  BuildAction.parseServices w (composePathOf w ctx)
  = (LoadYaml (composePathOf w ctx) :: buildParseLog w ctx,
     Returned (serviceNames w ctx)).
Proof.
  unfold BuildAction.parseServices, buildParseLog, serviceNames.
  rewrite bind_emit.
  destruct (loadServices w (composePathOf w ctx)); reflexivity.
Qed.

(** The whole run of the second version, stage by stage. *)
Lemma build_handler_eq w ctx :
  BuildAction.handler w ctx =
  if existsSync w (composePathOf w ctx) then
    (buildBeforeUp w ctx ++ buildUpEvents w ctx,
     if succeeded (exitCode (upRun w ctx)) then Returned tt
     else Thrown (upFailure (exitCode (upRun w ctx))))
  else
    ([Log info ("composeFile from user: " ++ composeFile (input ctx));
      Log info ("Workspace path: " ++ cwdOf ctx);
      Log info ("Resolved composePath: " ++ composePathOf w ctx);
      Log error ("Compose file NOT FOUND at: " ++ composePathOf w ctx)],
     Thrown ("Compose file not found: " ++ composePathOf w ctx)).
Proof.
  unfold BuildAction.handler.
  fold (cwdOf ctx). fold (composePathOf w ctx).
  unfold log at 1 2 3. rewrite !bind_emit.
  destruct (existsSync w (composePathOf w ctx)).
  2: { unfold log. rewrite bind_emit. reflexivity. }
  rewrite (bind_returned _ _ [] tt eq_refl).
  rewrite (bind_returned _ _ _ _ (build_parseServices_eq w ctx)).
  unfold BuildAction.removeContainers.
  rewrite (bind_returned _ _ _ _ (reclaim_eq w _)).
  unfold log at 1. rewrite bind_emit, build_composeUp_eq.
  cbn [trace outcome fst snd]. unfold buildBeforeUp. simpl.
  repeat (rewrite <- app_assoc; simpl). reflexivity.
Qed.

Lemma build_upStderr_logs str :
  forallb isLog (trace (BuildAction.upStderr str)) = true.
Proof.
  unfold BuildAction.upStderr.
  now destruct (includes "Creating" str || includes "Created" str
                || includes "level=warning" str).
Qed.

Section BuildEvents.
Variable p : Event -> bool.
Hypothesis Hp : ignoresLogs p.
Variables (w : World) (ctx : Ctx).

Lemma filter_buildBeforeUp :
  filter p (buildBeforeUp w ctx) =
  filter p (LoadYaml (composePathOf w ctx)
            :: map removalCall (serviceNames w ctx)).
Proof.
  unfold buildBeforeUp. cbn [filter]. rewrite !Hp.
  assert (Hlog : forallb isLog (buildParseLog w ctx) = true)
    by (unfold buildParseLog; now destruct (loadServices _ _)).
  rewrite !filter_app, (filter_logs _ Hp _ Hlog). simpl.
  rewrite Hp, app_nil_r.
  rewrite (filter_blocks _ Hp removalCall
             (fun s => map forwarded (chunks (removalRun w s)) ++
                       [Log info ("Removed any existing containers matching: " ++ s)]));
    [reflexivity|].
  intros s. apply logs_app; [|reflexivity].
  apply logs_map. now intros [[] d].
Qed.

Lemma filter_buildUpEvents :
  filter p (buildUpEvents w ctx) = filter p [upCall w ctx].
Proof.
  unfold buildUpEvents. cbn [filter]. rewrite (filter_logs _ Hp); [reflexivity|].
  apply logs_app.
  - apply logs_flat_map. intros [[] d]; [reflexivity | apply build_upStderr_logs].
  - now destruct (succeeded _).
Qed.
End BuildEvents.

(** X10.  The second version never queries a port and never calls
    [ctx.output].  If it returns, the manifest exists, the build closed
    with code 0, and the children it spawned are the removals of every
    service, in the order [Object.keys] gives the services, followed by the
    build.  If it throws, either the manifest does not exist, the error
    says so and no child was spawned; or the build closed with a code other
    than 0, the error carries the code, and the children are again the
    removals followed by the build.  Nothing is said here of a run in which
    a child never closes. *)
Theorem build_action_run (w : World) (ctx : Ctx) :
  (outcome (BuildAction.handler w ctx) = Returned tt ->
   existsSync w (composePathOf w ctx) = true
   /\ exitCode (upRun w ctx) = Some 0%Z
   /\ filter isSpawn (trace (BuildAction.handler w ctx))
      = map removalCall (serviceNames w ctx) ++ [upCall w ctx])
  /\ (forall msg,
        outcome (BuildAction.handler w ctx) = Thrown msg ->
        (existsSync w (composePathOf w ctx) = false
         /\ msg = ("Compose file not found: " ++ composePathOf w ctx)%string
         /\ filter isSpawn (trace (BuildAction.handler w ctx)) = [])
        \/ (existsSync w (composePathOf w ctx) = true
            /\ exitCode (upRun w ctx) <> Some 0%Z
            /\ msg = ("docker compose up exited with code "
                      ++ showCode (exitCode (upRun w ctx)))%string
            /\ filter isSpawn (trace (BuildAction.handler w ctx))
               = map removalCall (serviceNames w ctx) ++ [upCall w ctx]))
  /\ filter isPortQuery (trace (BuildAction.handler w ctx)) = []
  /\ filter isOutput (trace (BuildAction.handler w ctx)) = [].
Proof.
  rewrite build_handler_eq.
  destruct (existsSync w (composePathOf w ctx)); cbn [trace outcome fst snd].
  2: { split; [discriminate|]. split; [|split; reflexivity].
       intros msg Hmsg. injection Hmsg as <-. left. auto. }
  assert (Hspawn : filter isSpawn (buildBeforeUp w ctx ++ buildUpEvents w ctx)
                   = map removalCall (serviceNames w ctx) ++ [upCall w ctx]).
  { rewrite filter_app, (filter_buildBeforeUp _ isSpawn_ignoresLogs),
      (filter_buildUpEvents _ isSpawn_ignoresLogs).
    simpl. now rewrite filter_map_all. }
  split; [|split; [|split]].
  - destruct (succeeded (exitCode (upRun w ctx))) eqn:Hup; [|discriminate].
    apply succeeded_iff in Hup. auto.
  - intros msg.
    destruct (succeeded (exitCode (upRun w ctx))) eqn:Hup; [discriminate|].
    intros Hmsg. injection Hmsg as <-. right.
    split; [reflexivity|]. split; [|split; [reflexivity | exact Hspawn]].
    intros E. apply succeeded_iff in E. congruence.
  - rewrite filter_app, (filter_buildBeforeUp _ isPortQuery_ignoresLogs),
      (filter_buildUpEvents _ isPortQuery_ignoresLogs).
    simpl. rewrite app_nil_r. now apply filter_map_none.
  - rewrite filter_app, (filter_buildBeforeUp _ isOutput_ignoresLogs),
      (filter_buildUpEvents _ isOutput_ignoresLogs).
    simpl. rewrite app_nil_r. now apply filter_map_none.
Qed.

Lemma build_action_run_witness :
  outcome (BuildAction.handler Examples.webAndDb Examples.theCtx)
  = Returned tt
  /\ filter isSpawn
       (trace (BuildAction.handler Examples.webAndDb Examples.theCtx))
     = [removalCall "web"; removalCall "db";
        upCall Examples.webAndDb Examples.theCtx]
  /\ outcome (BuildAction.handler Examples.failingBuild Examples.theCtx)
     = Thrown "docker compose up exited with code 1".
Proof.
  split; [reflexivity|]. split; [|reflexivity].
  destruct (proj1 (build_action_run Examples.webAndDb Examples.theCtx)
              eq_refl) as (_ & _ & Hspawn).
  exact Hspawn.
Defined.

(** X11.  The first version extends the second: on the same world it spawns the
    same removals and the same build, then the port queries if the build
    succeeded; it throws when the second throws, with the same message, and
    returns when the second returns. *)
Theorem ports_action_extends_build_action (w : World) (ctx : Ctx) :
  filter isSpawn (trace (PortsAction.handler w ctx))
  = filter isSpawn (trace (BuildAction.handler w ctx))
    ++ (if existsSync w (composePathOf w ctx)
           && succeeded (exitCode (upRun w ctx))
        then map portCall (serviceNames w ctx) else [])
  /\ (forall msg,
        outcome (PortsAction.handler w ctx) = Thrown msg
        <-> outcome (BuildAction.handler w ctx) = Thrown msg)
  /\ ((exists r, outcome (PortsAction.handler w ctx) = Returned r)
      <-> outcome (BuildAction.handler w ctx) = Returned tt).
Proof.
  rewrite handler_eq, build_handler_eq.
  destruct (existsSync w (composePathOf w ctx)); cbn [andb].
  2: { cbn [trace outcome fst snd]. split; [reflexivity|]. split.
       - intros msg. split; intros H; injection H as <-; reflexivity.
       - split; [intros [r Hr]; discriminate | discriminate]. }
  assert (Hb : filter isSpawn (buildBeforeUp w ctx ++ buildUpEvents w ctx)
               = map removalCall (serviceNames w ctx) ++ [upCall w ctx]).
  { rewrite filter_app, (filter_buildBeforeUp _ isSpawn_ignoresLogs),
      (filter_buildUpEvents _ isSpawn_ignoresLogs).
    simpl. now rewrite filter_map_all. }
  destruct (succeeded (exitCode (upRun w ctx))); cbn [trace outcome fst snd].
  - split; [|split].
    + rewrite Hb, app_assoc, filter_app, spawns_until_up,
        (filter_afterUp _ isSpawn_ignoresLogs), filter_app.
      rewrite (filter_map_all isSpawn portCall) by reflexivity.
      simpl. now rewrite app_nil_r.
    + intros msg. split; discriminate.
    + split; [reflexivity | intros _; eexists; reflexivity].
  - split; [|split].
    + now rewrite Hb, spawns_until_up, app_nil_r.
    + intros msg. split; intros H; injection H as <-; reflexivity.
    + split; [intros [r Hr]; discriminate | discriminate].
Qed.

(** ** The classifier of the error channel *)

(** X12.  In both versions a chunk of the error channel of the build is logged
    under the label [DOCKER WARN] exactly when one of [Creating], [Created]
    and [level=warning] occurs in it, with that spelling, and under
    [DOCKER ERR] otherwise; the chunk follows the label unchanged.  A
    labelled warning is logged with [warn] in both versions. *)
Theorem stderr_label_follows_markers (str : string) :
  (hasMarker str ->
   PortsAction.upStderr str = ([Log warn ("DOCKER WARN: " ++ str)], Returned tt)
   /\ BuildAction.upStderr str
      = ([Log warn ("DOCKER WARN: " ++ str)], Returned tt))
  /\ (~ hasMarker str ->
      PortsAction.upStderr str
      = ([Log warn ("DOCKER ERR: " ++ str)], Returned tt)
      /\ BuildAction.upStderr str
         = ([Log error ("DOCKER ERR: " ++ str)], Returned tt)).
Proof.
  pose proof (routine_marker str) as Hm. fold (hasMarker str) in Hm.
  unfold PortsAction.upStderr, BuildAction.upStderr.
  destruct (includes "Creating" str || includes "Created" str
            || includes "level=warning" str).
  - split; [auto|]. intros Hno. exfalso. apply Hno, Hm. reflexivity.
  - split; [|auto]. intros Hyes. apply Hm in Hyes. discriminate.
Qed.

(** ** The empty URL *)

Lemma pickWebUrl_empty_iff table :
  PortsAction.pickWebUrl table = EmptyString <-> Forall unpublished table.
Proof.
  induction table as [|[s [|m ms]] table IH]; simpl.
  - split; [constructor | reflexivity].
  - rewrite IH. split; [now constructor | now inversion 1].
  - split; [discriminate|]. inversion 1 as [|? ? He _]. discriminate He.
Qed.

(** X13.  The URL that is returned is empty exactly when no service of the table
    has a mapping: the handler reports no URL only if no port query printed
    a line of the grammar, and always reports one otherwise. *)
Theorem webUrl_empty_iff_nothing_published (w : World) (ctx : Ctx)
    (r : PortsAction.Result) :
  outcome (PortsAction.handler w ctx) = Returned r ->
  (PortsAction.webUrl r = EmptyString
   <-> forall service ms, In (service, ms) (PortsAction.ports r) -> ms = []).
Proof.
  intros Hret. destruct (returned_run _ _ _ Hret) as (_ & _ & ->).
  cbn [PortsAction.ports PortsAction.webUrl]. unfold selectedUrl.
  rewrite pickWebUrl_empty_iff, Forall_forall. split.
  - intros H service ms Hin. apply (H (service, ms)).
    eapply Permutation_in; [symmetry; apply ownOrder_perm | exact Hin].
  - intros H [service ms] Hin. apply (H service ms).
    eapply Permutation_in; [apply ownOrder_perm | exact Hin].
Qed.

Lemma webUrl_empty_iff_nothing_published_witness :
  outcome (PortsAction.handler Examples.webAndDb Examples.theCtx)
  = Returned
      {| PortsAction.webUrl := "http://localhost:32768";
         PortsAction.ports :=
           [("web", [ {| hostPort := "32768"; containerPort := "80" |} ]);
            ("db", [])] |}
  /\ ("http://localhost:32768" = EmptyString
      <-> forall service ms,
            In (service, ms)
              [("web", [ {| hostPort := "32768"; containerPort := "80" |} ]);
               ("db", [])] ->
            ms = []).
Proof.
  split; [reflexivity|].
  exact (webUrl_empty_iff_nothing_published Examples.webAndDb
           Examples.theCtx _ eq_refl).
Defined.
